(** * Schema resolution of the ABI type graph (src/chain/abi.ts) and the
      Variant value wrapper.

    The development is a shallow embedding: every TypeScript function the
    properties talk about is transcribed as a Rocq function.

    - JavaScript strings are modelled by [string]; a character stands for
      one code unit.
    - Objects with identity ([ABI.ResolvedType] instances) live in an
      explicit heap.  The address of a node is the value of the [id]
      counter at its allocation ([++ctx.id]), which is unique inside one
      resolution pass.
    - The dictionary [types : {[name: string]: ABI.ResolvedType}] is a
      plain object: its own properties are a finite map from strings to
      node addresses, and a read of a name that is not an own property
      falls through to the properties every object inherits (such as
      "constructor"), whose values are built-in objects.
    - Recursion that is not structural carries a fuel argument; running
      out of fuel is the outer [None] and is proved never to happen for
      the fuel the entry points supply. *)

From Stdlib Require Import ZArith String Ascii List Bool Lia.
From stdpp Require Import base option list gmap strings.

Local Open Scope string_scope.
Local Open Scope Z_scope.
Local Open Scope nat_scope.
Local Open Scope list_scope.

(** ** String primitives of the host language *)

Module JS.

(** [String.prototype.slice(start, end)]: negative positions count from
  the end of the string, positions are clamped to [0, length]. *)
Definition clamp (len : Z) (pos : Z) : Z :=
  if (pos <? 0)%Z then Z.max (len + pos) 0 else Z.min pos len.

Definition slice (s : string) (start end_ : Z) : string :=
  let len := Z.of_nat (String.length s) in
  let from := clamp len start in
  let to := clamp len end_ in
  let span := Z.max (to - from) 0 in
  substring (Z.to_nat from) (Z.to_nat span) s.

(** [String.prototype.endsWith(search)] with the default end position. *)
Definition endsWith (s search : string) : bool :=
  let len := String.length s in
  let n := String.length search in
  if n <=? len then String.eqb (substring (len - n) n s) search else false.

(** [Array.prototype.findIndex]: index of the first element satisfying
  the predicate, [-1] when there is none. *)
Fixpoint findIndex_from {A} (p : A → bool) (l : list A) (i : Z) : Z :=
  match l with
  | [] => (-1)%Z
  | x :: l' => if p x then i else findIndex_from p l' (i + 1)%Z
  end.

Definition findIndex {A} (p : A → bool) (l : list A) : Z :=
  findIndex_from p l 0%Z.

(** [Array.prototype.unshift] of one element. *)
Definition unshift {A} (x : A) (l : list A) : list A := x :: l.

(** The properties of [Object.prototype], which every plain object
    inherits.  The value of each is a function, except for [__proto__],
    whose value is [Object.prototype] itself; all of them are truthy. *)
Definition Object_prototype : list string :=
  ["constructor"; "__defineGetter__"; "__defineSetter__"; "hasOwnProperty";
   "__lookupGetter__"; "__lookupSetter__"; "isPrototypeOf";
   "propertyIsEnumerable"; "toString"; "valueOf"; "__proto__";
   "toLocaleString"].

Definition inherited (name : string) : bool :=
  existsb (String.eqb name) Object_prototype.

(** An error object: the name of its class and its message. *)
Record Thrown := mkThrown { error_name : string; error_message : string }.

(** [new Error(message)] *)
Definition Error (message : string) : Thrown :=
  {| error_name := "Error"; error_message := message |}.

End JS.

(** ** The schema store *)

Module ABI.

Module TypeDef.
Record t := mk { new_type_name : string; type : string }.
  End TypeDef.

Module Field.
Record t := mk { name : string; type : string }.
  End Field.

Module Struct.
Record t := mk { name : string; base : string; fields : list Field.t }.
  End Struct.

Module Variant.
Record t := mk { name : string; types : list string }.
  End Variant.

(** The [actions], [tables] and [ricardian_clauses] lists take no part in
  type resolution and are left out of the record. *)
Record Def := mkDef {
  version : string;
  types : list TypeDef.t;
  variants : list Variant.t;
  structs : list Struct.t
  }.

(** *** Construction of a schema store *)

(** [Partial<ABI.Def>]: every property may be missing. *)
Record PartialDef := mkPartialDef {
    arg_version : option string;
    arg_types : option (list TypeDef.t);
    arg_variants : option (list Variant.t);
    arg_structs : option (list Struct.t)
  }.

(** [static version = 'eosio::abi/1.1'] *)
Definition static_version : string := "eosio::abi/1.1".

(** [a || b] for a string that may be missing: undefined and the empty
    string are falsy. *)
Definition or_string (a : option string) (b : string) : string :=
  match a with
  | Some s => if String.eqb s "" then b else s
  | None => b
  end.

(** [a || []] for an array that may be missing: every array is truthy. *)
Definition or_array {A : Type} (a : option (list A)) : list A :=
  match a with
  | Some l => l
  | None => []
  end.

(** [constructor(args: Partial<ABI.Def>)] *)
Definition constructor (args : PartialDef) : Def :=
  {| version := or_string (arg_version args) static_version;
     types := or_array (arg_types args);
     variants := or_array (arg_variants args);
     structs := or_array (arg_structs args) |}.

(** *** ResolvedType: a node of the resolved graph *)

(** What a read of the dictionary, and hence a call of [resolve], can
    give: the node at an address, or the built-in object that is the value
    of an inherited property. *)
Inductive Value :=
  | Node (address : nat)
  | Builtin (property : string).

Module ResolvedType.

Record t := mk {
    name : string;
    id : nat;
    isArray : bool;
    isOptional : bool;
    isExtension : bool;
    parent : option Value;
    fields : option (list (string * Value));
    variant : option (list Value);
    ref : option Value
  }.

(** The three suffix tests of the constructor, in source order. *)
Definition strip (marker : string) (name : string) : string * bool :=
  if JS.endsWith name marker
  then (JS.slice name 0 (- Z.of_nat (String.length marker)), true)
  else (name, false).

(** [new ABI.ResolvedType(fullName, id)] *)
Definition new (fullName : string) (id : nat) : t :=
  let name := fullName in
  let '(name, isExtension) := strip "$" name in
  let '(name, isOptional) := strip "?" name in
  let '(name, isArray) := strip "[]" name in
  {| name := name; id := id;
     isArray := isArray; isOptional := isOptional; isExtension := isExtension;
     parent := None; fields := None; variant := None; ref := None |}.

(** [get typeName()] *)
Definition typeName (this : t) : string :=
  let rv := name this in
  let rv := if isArray this then rv +:+ "[]" else rv in
  let rv := if isOptional this then rv +:+ "?" else rv in
  let rv := if isExtension this then rv +:+ "$" else rv in
  rv.

Definition set_ref (r : Value) (this : t) : t :=
  {| name := name this; id := id this; isArray := isArray this;
     isOptional := isOptional this; isExtension := isExtension this;
     parent := parent this; fields := fields this;
     variant := variant this; ref := Some r |}.

Definition set_fields (fs : list (string * Value)) (this : t) : t :=
  {| name := name this; id := id this; isArray := isArray this;
     isOptional := isOptional this; isExtension := isExtension this;
     parent := parent this; fields := Some fs;
     variant := variant this; ref := ref this |}.

Definition set_variant (vs : list Value) (this : t) : t :=
  {| name := name this; id := id this; isArray := isArray this;
     isOptional := isOptional this; isExtension := isExtension this;
     parent := parent this; fields := fields this;
     variant := Some vs; ref := ref this |}.

End ResolvedType.

(** *** Lookups and the struct flattener *)

Section SchemaStore.

Variable this : Def.

Definition getStruct (name : string) : option Struct.t :=
  find (λ struct, String.eqb (Struct.name struct) name) (structs this).

Definition getVariant (name : string) : option Variant.t :=
  find (λ variant, String.eqb (Variant.name variant) name) (variants this).

Definition getAlias (name : string) : option TypeDef.t :=
  find (λ typeDef, String.eqb (TypeDef.new_type_name typeDef) name) (types this).

(** [for (let i = n - 1; i >= 0; i--) rv.unshift(fields[i])] *)
Fixpoint unshift_down (fields : list Field.t) (n : nat) (rv : list Field.t)
  : list Field.t :=
  match n with
  | 0 => rv
  | S i =>
      match fields !! i with
      | Some field => unshift_down fields i (JS.unshift field rv)
      | None => unshift_down fields i rv (* index past the end: not reached *)
      end
  end.

(** The [do ... while (top !== undefined)] loop of [resolveStruct].  The
  inner [Some rv] is a returned field list, the inner [None] the bare
  [return] (undefined). *)
Fixpoint resolveStruct_loop (fuel : nat) (top : Struct.t)
    (rv : list Field.t) (seen : gset string) : option (option (list Field.t)) :=
  match fuel with
  | 0 => None
  | S fuel =>
      let rv := unshift_down (Struct.fields top) (length (Struct.fields top)) rv in
      let seen := {[Struct.name top]} ∪ seen in
      if decide (Struct.base top ∈ seen) then Some None (* circular ref *)
      else
        match getStruct (Struct.base top) with
        | Some top => resolveStruct_loop fuel top rv seen
        | None => Some (Some rv)
        end
  end.

Definition resolveStruct (name : string) : option (option (list Field.t)) :=
  match getStruct name with
  | None => Some None
  | Some top => resolveStruct_loop (length (structs this)) top [] ∅
  end.

(** *** The resolver *)

(** Mutable state of one resolution pass: the [types] dictionary, the
  counter object [ctx] and the nodes allocated so far. *)
Record Pass := mkPass {
  cache : gmap string nat;
  ctx_id : nat;
  heap : gmap nat ResolvedType.t
  }.

Definition Pass_empty : Pass := {| cache := ∅; ctx_id := 0; heap := ∅ |}.

(** Assignment to a property of the node at address [a]. *)
Definition assign (a : nat) (f : ResolvedType.t → ResolvedType.t) (σ : Pass) : Pass :=
  {| cache := cache σ; ctx_id := ctx_id σ; heap := alter f a (heap σ) |}.

(** [Array.prototype.map] with a callback that works on the pass state:
  elements are visited from left to right. *)
Fixpoint map_st {A B : Type} (f : A → Pass → option (B * Pass))
    (l : list A) (σ : Pass) : option (list B * Pass) :=
  match l with
  | [] => Some ([], σ)
  | x :: l =>
      match f x σ with
      | None => None
      | Some (y, σ) =>
          match map_st f l σ with
          | None => None
          | Some (ys, σ) => Some (y :: ys, σ)
          end
      end
  end.

(** The read [types[name]]: an own property if there is one, otherwise
    the inherited property of that name, otherwise undefined. *)
Definition read (types : gmap string nat) (name : string) : option Value :=
  match types !! name with
  | Some a => Some (Node a)
  | None => if JS.inherited name then Some (Builtin name) else None
  end.

(** The write [types[type.typeName] = type] is reached only after a read
    of the same dictionary under the same name has given undefined, so the
    key is no inherited property and the write adds an own property. *)
Fixpoint resolve (fuel : nat) (name : string) (σ : Pass) : option (Value * Pass) :=
  match fuel with
  | 0 => None
  | S fuel =>
      match read (cache σ) name with
      | Some existing => Some (existing, σ)
      | None =>
          let id := S (ctx_id σ) in
          let type := ResolvedType.new name id in
          let σ := {| cache := <[ResolvedType.typeName type := id]> (cache σ);
                      ctx_id := id;
                      heap := <[id := type]> (heap σ) |} in
          match getAlias (ResolvedType.name type) with
          | Some alias =>
              match resolve fuel (TypeDef.type alias) σ with
              | None => None
              | Some (r, σ) => Some (Node id, assign id (ResolvedType.set_ref r) σ)
              end
          | None =>
              match resolveStruct (ResolvedType.name type) with
              | None => None
              | Some (Some fields) =>
                  match map_st (λ field σ,
                                  match resolve fuel (Field.type field) σ with
                                  | None => None
                                  | Some (r, σ) => Some ((Field.name field, r), σ)
                                  end) fields σ with
                  | None => None
                  | Some (fs, σ) =>
                      Some (Node id, assign id (ResolvedType.set_fields fs) σ)
                  end
              | Some None =>
                  match getVariant (ResolvedType.name type) with
                  | Some variant =>
                      match map_st (resolve fuel) (Variant.types variant) σ with
                      | None => None
                      | Some (vs, σ) =>
                          Some (Node id, assign id (ResolvedType.set_variant vs) σ)
                      end
                  | None => Some (Node id, σ) (* builtin or unknown type *)
                  end
              end
          end
      end
  end.

(** Every type name the schema mentions as an alias target, a field type
  or a variant alternative. *)
Definition referenced : list string :=
  map TypeDef.type (types this)
  ++ flat_map (λ s, map Field.type (Struct.fields s)) (structs this)
  ++ flat_map Variant.types (variants this).

Definition resolve_fuel : nat := 2 + length referenced.

(** [resolveType(name)]: a fresh dictionary and a fresh counter. *)
Definition resolveType (name : string) : option (Value * Pass) :=
  resolve resolve_fuel name Pass_empty.

End SchemaStore.

End ABI.

(** ** Variant values *)

Module Variant.

Section VariantClass.

(** [abiTypeString] and the descriptor and payload types come from the
  serializer; [abiVariant] is the static alternative list of the
  concrete subclass. *)
Context {ABITypeDescriptor ABISerializable : Type}.
Variable abiTypeString : ABITypeDescriptor → string.
Variable abiVariant : list ABITypeDescriptor.

Record t := mk { value : ABISerializable; variantIdx : Z }.


(** [new Variant([tag, payload])]; [inl] is the thrown error. *)
Definition new (variant : string * ABISerializable) : JS.Thrown + t :=
  let value := variant.2 in
  let variantIdx :=
    JS.findIndex (λ t, String.eqb t variant.1) (map abiTypeString abiVariant) in
  if (0 >? variantIdx)%Z || (Z.of_nat (length abiVariant) <=? variantIdx)%Z
  then inl (JS.Error ("Unknown variant " +:+ variant.1))
  else inr {| value := value; variantIdx := variantIdx |}.

(** [abiVariant[i]]: undefined for an index that is not in the array. *)
Definition index (i : Z) : option ABITypeDescriptor :=
  if (i <? 0)%Z then None else abiVariant !! Z.to_nat i.

(** [get variantName()]; [None] when the descriptor read is undefined. *)
Definition variantName (this : t) : option string :=
  match index (variantIdx this) with
  | Some variant => Some (abiTypeString variant)
  | None => None
  end.

Inductive JSON :=
  | JSONString (s : string)
  | JSONValue (v : ABISerializable).

(** [toJSON()]: the array literal [[this.variantName, this.value]]. *)
Definition toJSON (this : t) : option (list JSON) :=
  match variantName this with
  | Some name => Some [JSONString name; JSONValue (value this)]
  | None => None
  end.

End VariantClass.

End Variant.

(** ** Vocabulary of the properties *)

Section Vocabulary.

Variable this : ABI.Def.

(** [base_chain top chain]: following [base] from [top] visits exactly
    the structs of [chain], in this order, and the base of the last one
    names no struct. *)
Inductive base_chain : ABI.Struct.t → list ABI.Struct.t → Prop :=
  | chain_last top :
      ABI.getStruct this (ABI.Struct.base top) = None →
      base_chain top [top]
  | chain_next top next chain :
      ABI.getStruct this (ABI.Struct.base top) = Some next →
      base_chain next chain →
      base_chain top (top :: chain).

(** [base_walk top visited last]: some prefix of the walk along [base],
    from [top] to [last]. *)
Inductive base_walk : ABI.Struct.t → list ABI.Struct.t → ABI.Struct.t → Prop :=
  | walk_here top : base_walk top [top] top
  | walk_next top next visited last :
      ABI.getStruct this (ABI.Struct.base top) = Some next →
      base_walk next visited last →
      base_walk top (top :: visited) last.

(** The walk from [top] comes to a struct whose base is the name of a
    struct already visited. *)
Definition revisits (top : ABI.Struct.t) : Prop :=
  ∃ visited last,
    base_walk top visited last
    ∧ ABI.Struct.base last ∈ map ABI.Struct.name visited.

Definition struct_names : gset string :=
  list_to_set (map ABI.Struct.name (ABI.structs this)).

(** What the constructor writes into a node; [typeName] reads nothing
    else. *)
Definition header (node : ABI.ResolvedType.t) : string * nat * bool * bool * bool :=
  (ABI.ResolvedType.name node, ABI.ResolvedType.id node,
   ABI.ResolvedType.isArray node, ABI.ResolvedType.isOptional node,
   ABI.ResolvedType.isExtension node).

(** Number of the properties [fields], [variant], [ref] that are set. *)
Definition populated (node : ABI.ResolvedType.t) : nat :=
  (match ABI.ResolvedType.fields node with Some _ => 1 | None => 0 end)
  + (match ABI.ResolvedType.variant node with Some _ => 1 | None => 0 end)
  + (match ABI.ResolvedType.ref node with Some _ => 1 | None => 0 end).

Definition unpopulated (node : ABI.ResolvedType.t) : Prop :=
  ABI.ResolvedType.fields node = None
  ∧ ABI.ResolvedType.variant node = None
  ∧ ABI.ResolvedType.ref node = None.

(** A node whose constructing call has returned, read against the
    dictionary [c]: which property is set follows the order alias,
    struct, variant, and every child is what the dictionary gives for
    the child's full name. *)
Definition complete (c : gmap string nat) (node : ABI.ResolvedType.t) : Prop :=
  match ABI.getAlias this (ABI.ResolvedType.name node) with
  | Some alias =>
      (∃ r, ABI.ResolvedType.ref node = Some r
            ∧ ABI.read c (ABI.TypeDef.type alias) = Some r)
      ∧ ABI.ResolvedType.fields node = None
      ∧ ABI.ResolvedType.variant node = None
  | None =>
      match ABI.resolveStruct this (ABI.ResolvedType.name node) with
      | Some (Some fs) =>
          (∃ frs, ABI.ResolvedType.fields node = Some frs
                  ∧ Forall2 (λ f fr, fr.1 = ABI.Field.name f
                                     ∧ ABI.read c (ABI.Field.type f) = Some fr.2)
                    fs frs)
          ∧ ABI.ResolvedType.variant node = None
          ∧ ABI.ResolvedType.ref node = None
      | _ =>
          match ABI.getVariant this (ABI.ResolvedType.name node) with
          | Some v =>
              (∃ vs, ABI.ResolvedType.variant node = Some vs
                     ∧ Forall2 (λ n r, ABI.read c n = Some r)
                         (ABI.Variant.types v) vs)
              ∧ ABI.ResolvedType.fields node = None
              ∧ ABI.ResolvedType.ref node = None
          | None => unpopulated node
          end
      end
  end.

(** No own property of the dictionary hides an inherited one. *)
Definition own_only (c : gmap string nat) : Prop :=
  ∀ n a, c !! n = Some a → JS.inherited n = false.

(** Invariant of a resolution pass; [pending] holds the addresses of the
    nodes whose constructing call is still running. *)
Record pass_inv (pending : gset nat) (σ : ABI.Pass) : Prop := {
    inv_pending : ∀ a, a ∈ pending → a ≤ ABI.ctx_id σ;
    inv_own : own_only (ABI.cache σ);
    inv_cache : ∀ n a, ABI.cache σ !! n = Some a →
      ∃ node, ABI.heap σ !! a = Some node ∧ ABI.ResolvedType.typeName node = n;
    inv_heap : ∀ a node, ABI.heap σ !! a = Some node →
      0 < a ≤ ABI.ctx_id σ
      ∧ ABI.cache σ !! ABI.ResolvedType.typeName node = Some a
      ∧ header node = header (ABI.ResolvedType.new (ABI.ResolvedType.typeName node) a);
    inv_nodes : ∀ a node, ABI.heap σ !! a = Some node →
      if decide (a ∈ pending) then unpopulated node
      else complete (ABI.cache σ) node
  }.

(** A call leaves the nodes that existed before it untouched. *)
Definition frame (σ σ' : ABI.Pass) : Prop :=
  ABI.ctx_id σ ≤ ABI.ctx_id σ'
  ∧ ABI.cache σ ⊆ ABI.cache σ'
  ∧ ∀ a, a ≤ ABI.ctx_id σ → ABI.heap σ' !! a = ABI.heap σ !! a.

(** The full names a pass started at [name] can ever ask for. *)
Definition universe (name : string) : gset string :=
  {[name]} ∪ list_to_set (ABI.referenced this).

End Vocabulary.

(** [stands_for σ v fullName]: the value [v] is what a finished pass
    holds for [fullName], either the node registered under that name or,
    for a name every object inherits, the built-in of that name. *)
Definition stands_for (σ : ABI.Pass) (v : ABI.Value) (fullName : string) : Prop :=
  match v with
  | ABI.Node a =>
      JS.inherited fullName = false
      ∧ ABI.cache σ !! fullName = Some a
      ∧ ∃ node, ABI.heap σ !! a = Some node
                ∧ ABI.ResolvedType.typeName node = fullName
  | ABI.Builtin property =>
      JS.inherited fullName = true ∧ property = fullName
  end.

(** The state right after [resolve] has allocated and registered a node
    for [name]. *)
Definition register (name : string) (σ : ABI.Pass) : ABI.Pass :=
  let id := S (ABI.ctx_id σ) in
  {| ABI.cache := <[name:=id]> (ABI.cache σ);
     ABI.ctx_id := id;
     ABI.heap := <[id:=ABI.ResolvedType.new name id]> (ABI.heap σ) |}.

(** The nodes of a pass sit at the addresses 1 to [ctx_id], one per
    dictionary entry. *)
Definition dense (σ : ABI.Pass) : Prop :=
  (∀ a, 0 < a ≤ ABI.ctx_id σ → is_Some (ABI.heap σ !! a))
  ∧ size (ABI.cache σ) = ABI.ctx_id σ.

(** Position of the first alternative equal to a tag: [first_match l tag i]
    when [l] holds [tag] at [i] and at no earlier position. *)
Definition first_match (l : list string) (tag : string) (i : nat) : Prop :=
  l !! i = Some tag ∧ ∀ j t, j < i → l !! j = Some t → t ≠ tag.

(** Suffix rendered by [typeName] for given flags. *)
Definition suffix (isArray isOptional isExtension : bool) : string :=
  (if isArray then "[]" else "")
  +:+ (if isOptional then "?" else "")
  +:+ (if isExtension then "$" else "").

(** ** Sample schemas *)

Module Samples.

Definition b0 := ABI.Field.mk "b0" "uint8".
Definition b1 := ABI.Field.mk "b1" "string".
Definition d0 := ABI.Field.mk "d0" "name".
Definition B := ABI.Struct.mk "B" "" [b0; b1].
Definition D := ABI.Struct.mk "D" "B" [d0].

(** A struct [D] deriving from [B]. *)
Definition derived : ABI.Def := ABI.mkDef "eosio::abi/1.1" [] [] [D; B].

(** No declarations at all. *)
Definition empty : ABI.Def := ABI.mkDef "eosio::abi/1.1" [] [] [].

Definition A_self := ABI.Struct.mk "A" "A" [ABI.Field.mk "x" "uint8"].

(** A struct that is its own base. *)
Definition self_base : ABI.Def := ABI.mkDef "eosio::abi/1.1" [] [] [A_self].




(** A linked list: the struct refers to itself through a field, and an
    alias and a variant refer back to it. *)
Definition linked : ABI.Def :=
  ABI.mkDef "eosio::abi/1.1"
    [ABI.TypeDef.mk "next_t" "cell?"]
    [ABI.Variant.mk "item" ["cell"; "int8"; "item[]"]]
    [ABI.Struct.mk "cell" "" [ABI.Field.mk "head" "item"; ABI.Field.mk "tail" "next_t"]].

(** A struct with a field of type [foo] and one of type [foo[]]. *)
Definition two_foos : ABI.Def :=
  ABI.mkDef "eosio::abi/1.1" [] []
    [ABI.Struct.mk "S" "" [ABI.Field.mk "one" "foo"; ABI.Field.mk "many" "foo[]"]].

(** An alias whose name is also a property every object inherits. *)
Definition inherited_alias : ABI.Def :=
  ABI.mkDef "eosio::abi/1.1" [ABI.TypeDef.mk "valueOf" "uint8"] [] [].

(** A struct with a field whose type is a property every object inherits,
    followed by a field of an ordinary type. *)
Definition inherited_field : ABI.Def :=
  ABI.mkDef "eosio::abi/1.1" [] []
    [ABI.Struct.mk "S" "" [ABI.Field.mk "f" "toString"; ABI.Field.mk "g" "uint8"]].

End Samples.

(** ** Facts about the string primitives *)

Section StringFacts.

Lemma substring_all (s : string) : substring 0 (String.length s) s = s.
Proof. induction s as [|a s IH]; simpl; [reflexivity | by rewrite IH]. Qed.

Lemma substring_split (s : string) (k : nat) :
  k ≤ String.length s →
  substring 0 k s +:+ substring k (String.length s - k) s = s.
Proof.
  revert k. induction s as [|a s IH]; intros [|k] Hk; simpl in *;
    try reflexivity; try lia.
  - by rewrite substring_all.
  - change (String a ?x +:+ ?y) with (String a (x +:+ y)).
    by rewrite IH by lia.
Qed.

Lemma slice_prefix (s : string) (n : nat) :
  0 < n → n ≤ String.length s →
  JS.slice s 0 (- Z.of_nat n) = substring 0 (String.length s - n) s.
Proof.
  intros Hn Hle. unfold JS.slice, JS.clamp.
  destruct (Z.ltb_spec (- Z.of_nat n) 0) as [_|?]; [|lia].
  destruct (Z.ltb_spec 0 0) as [?|_]; [lia|].
  f_equal; lia.
Qed.

Lemma endsWith_slice (s marker : string) :
  0 < String.length marker →
  JS.endsWith s marker = true →
  JS.slice s 0 (- Z.of_nat (String.length marker)) +:+ marker = s.
Proof.
  intros Hpos. unfold JS.endsWith.
  destruct (Nat.leb_spec (String.length marker) (String.length s)) as [Hle|]; [|done].
  intros Heq%String.eqb_eq.
  rewrite slice_prefix by done.
  pose proof (substring_split s (String.length s - String.length marker)) as Hs.
  replace (String.length s - (String.length s - String.length marker))
    with (String.length marker) in Hs by lia.
  rewrite Heq in Hs. apply Hs. lia.
Qed.

(** Stripping a marker and putting it back gives the string back. *)
Lemma strip_restore (marker s : string) :
  0 < String.length marker →
  (if (ABI.ResolvedType.strip marker s).2
   then (ABI.ResolvedType.strip marker s).1 +:+ marker
   else (ABI.ResolvedType.strip marker s).1) = s.
Proof.
  intros Hpos. unfold ABI.ResolvedType.strip.
  destruct (JS.endsWith s marker) eqn:E; simpl; [|done].
  by apply endsWith_slice.
Qed.

Lemma typeName_new (fullName : string) (id : nat) :
  ABI.ResolvedType.typeName (ABI.ResolvedType.new fullName id) = fullName.
Proof.
  unfold ABI.ResolvedType.new, ABI.ResolvedType.typeName.
  pose proof (strip_restore "$" fullName) as H1.
  destruct (ABI.ResolvedType.strip "$" fullName) as [n1 b1].
  pose proof (strip_restore "?" n1) as H2.
  destruct (ABI.ResolvedType.strip "?" n1) as [n2 b2].
  pose proof (strip_restore "[]" n2) as H3.
  destruct (ABI.ResolvedType.strip "[]" n2) as [n3 b3].
  simpl in *.
  rewrite H3 by lia. rewrite H2 by lia. apply H1. lia.
Qed.

Lemma id_new (fullName : string) (id : nat) :
  ABI.ResolvedType.id (ABI.ResolvedType.new fullName id) = id.
Proof.
  unfold ABI.ResolvedType.new.
  destruct (ABI.ResolvedType.strip "$" fullName) as [n1 b1].
  destruct (ABI.ResolvedType.strip "?" n1) as [n2 b2].
  by destruct (ABI.ResolvedType.strip "[]" n2) as [n3 b3].
Qed.

Lemma new_unpopulated (fullName : string) (id : nat) :
  ABI.ResolvedType.fields (ABI.ResolvedType.new fullName id) = None
  ∧ ABI.ResolvedType.variant (ABI.ResolvedType.new fullName id) = None
  ∧ ABI.ResolvedType.ref (ABI.ResolvedType.new fullName id) = None.
Proof.
  unfold ABI.ResolvedType.new.
  destruct (ABI.ResolvedType.strip "$" fullName) as [n1 b1].
  destruct (ABI.ResolvedType.strip "?" n1) as [n2 b2].
  by destruct (ABI.ResolvedType.strip "[]" n2) as [n3 b3].
Qed.

End StringFacts.

(** ** The struct flattener *)

Section FlattenerFacts.

Variable this : ABI.Def.

Local Abbreviation getStruct := (ABI.getStruct this).
Local Abbreviation loop := (ABI.resolveStruct_loop this).

Lemma getStruct_Some (name : string) (s : ABI.Struct.t) :
  getStruct name = Some s → ABI.Struct.name s = name ∧ s ∈ ABI.structs this.
Proof.
  unfold ABI.getStruct. intros [Hin Heq]%find_some.
  apply String.eqb_eq in Heq. by rewrite list_elem_of_In.
Qed.

Lemma getStruct_found (name : string) (s : ABI.Struct.t) :
  getStruct name = Some s → getStruct (ABI.Struct.name s) = Some s.
Proof. intros H. by destruct (getStruct_Some _ _ H) as [-> _]. Qed.

Lemma unshift_down_take (fields rv : list ABI.Field.t) (n : nat) :
  n ≤ length fields → ABI.unshift_down fields n rv = take n fields ++ rv.
Proof.
  revert rv. induction n as [|i IH]; intros rv Hn; simpl; [done|].
  destruct (lookup_lt_is_Some_2 fields i) as [f Hf]; [lia|].
  rewrite Hf, IH by lia. unfold JS.unshift.
  rewrite (take_S_r _ _ _ Hf), <- app_assoc. done.
Qed.

Lemma unshift_down_all (fields rv : list ABI.Field.t) :
  ABI.unshift_down fields (length fields) rv = fields ++ rv.
Proof. rewrite unshift_down_take by done. by rewrite firstn_all. Qed.

Lemma struct_names_spec (n : string) :
  n ∈ struct_names this ↔ ∃ s, s ∈ ABI.structs this ∧ ABI.Struct.name s = n.
Proof.
  unfold struct_names. rewrite elem_of_list_to_set.
  change (map ABI.Struct.name) with (fmap (M:=list) ABI.Struct.name).
  rewrite list_elem_of_fmap. naive_solver.
Qed.

Lemma size_list_to_set_le (l : list string) :
  size (list_to_set l : gset string) ≤ length l.
Proof.
  induction l as [|x l IH].
  - rewrite list_to_set_nil, size_empty. done.
  - rewrite list_to_set_cons, size_union_alt, size_singleton. cbn [length].
    assert (size (list_to_set l ∖ {[x]} : gset string)
            ≤ size (list_to_set l : gset string)) as Hle.
    { apply subseteq_size. set_solver. }
    lia.
Qed.

(** The loop returns within [fuel] rounds once [fuel] covers the struct
    names not yet seen. *)
Lemma loop_total (fuel : nat) :
  ∀ top rv seen,
    getStruct (ABI.Struct.name top) = Some top →
    ABI.Struct.name top ∉ seen →
    size (struct_names this ∖ seen) ≤ fuel →
    is_Some (loop fuel top rv seen).
Proof.
  induction fuel as [|fuel IH]; intros top rv seen Hfound Hfresh Hsize.
  - exfalso.
    assert (ABI.Struct.name top ∈ struct_names this ∖ seen) as Hin.
    { apply elem_of_difference; split; [|done].
      apply struct_names_spec. exists top.
      by destruct (getStruct_Some _ _ Hfound). }
    assert (size (struct_names this ∖ seen) = 0) as Hz by lia.
    apply size_empty_iff in Hz. set_solver.
  - simpl. case_decide as Hbase; [by eexists|].
    destruct (getStruct (ABI.Struct.base top)) as [next|] eqn:Hnext; [|by eexists].
    apply IH.
    + by eapply getStruct_found.
    + by destruct (getStruct_Some _ _ Hnext) as [-> _].
    + assert (ABI.Struct.name top ∈ struct_names this) as Hin.
      { apply struct_names_spec. exists top.
        by destruct (getStruct_Some _ _ Hfound). }
      assert (struct_names this ∖ ({[ABI.Struct.name top]} ∪ seen)
              ⊂ struct_names this ∖ seen) as Hsub by set_solver.
      apply subset_size in Hsub. lia.
Qed.

Lemma resolveStruct_total (name : string) :
  is_Some (ABI.resolveStruct this name).
Proof.
  unfold ABI.resolveStruct.
  destruct (getStruct name) as [top|] eqn:Htop; [|by eexists].
  apply loop_total.
  - by eapply getStruct_found.
  - set_solver.
  - assert (size (struct_names this ∖ ∅) ≤ size (struct_names this)) as Hle.
    { apply subseteq_size. set_solver. }
    pose proof (size_list_to_set_le (map ABI.Struct.name (ABI.structs this))) as Hlen.
    rewrite length_map in Hlen. unfold struct_names in *. lia.
Qed.

(** *** Finite base chains *)

Lemma base_chain_det top chain1 chain2 :
  base_chain this top chain1 → base_chain this top chain2 → chain1 = chain2.
Proof.
  intros H1. revert chain2.
  induction H1 as [top Hend|top next chain Hnext Hchain IH];
    intros chain2 H2; inversion H2; subst; try congruence.
  f_equal. apply IH. congruence.
Qed.

Lemma base_chain_found top chain s :
  getStruct (ABI.Struct.name top) = Some top →
  base_chain this top chain → s ∈ chain →
  getStruct (ABI.Struct.name s) = Some s.
Proof.
  intros Hfound Hchain. revert Hfound.
  induction Hchain as [top Hend|top next chain Hnext Hchain IH]; intros Hfound Hin.
  - apply list_elem_of_singleton in Hin. by subst.
  - apply elem_of_cons in Hin as [->|Hin]; [done|].
    apply IH; [|done]. by eapply getStruct_found.
Qed.

Lemma base_chain_suffix top chain s :
  base_chain this top chain → s ∈ chain →
  ∃ rest, base_chain this s rest ∧ length rest ≤ length chain.
Proof.
  induction 1 as [top Hend|top next chain Hnext Hchain IH]; intros Hin.
  - apply list_elem_of_singleton in Hin. subst. exists [top]. split; [|done].
    by constructor.
  - apply elem_of_cons in Hin as [->|Hin].
    + exists (top :: chain). split; [|done]. by econstructor.
    + destruct (IH Hin) as (rest & Hrest & Hlen). exists rest. simpl. split; [done|lia].
Qed.

(** A chain that ends never comes back to a name it has passed. *)
Lemma base_chain_NoDup top chain :
  getStruct (ABI.Struct.name top) = Some top →
  base_chain this top chain →
  NoDup (map ABI.Struct.name chain).
Proof.
  intros Hfound Hchain. revert Hfound.
  induction Hchain as [top Hend|top next chain Hnext Hchain IH]; intros Hfound; simpl.
  - apply NoDup_singleton.
  - assert (getStruct (ABI.Struct.name next) = Some next) as Hfnext
      by by eapply getStruct_found.
    apply NoDup_cons. split; [|by apply IH].
    change (map ABI.Struct.name) with (fmap (M:=list) ABI.Struct.name).
    intros (s & Hname & Hin)%list_elem_of_fmap.
    pose proof (base_chain_found _ _ _ Hfnext Hchain Hin) as Hs.
    rewrite <- Hname, Hfound in Hs. injection Hs as <-.
    destruct (base_chain_suffix _ _ _ Hchain Hin) as (rest & Hrest & Hlen).
    assert (top :: chain = rest) as <-.
    { eapply base_chain_det; [|done]. by econstructor. }
    simpl in Hlen. lia.
Qed.

(** Along a finite chain the loop can only return the concatenation of
    the fields, base-most struct first. *)
Lemma loop_chain (fuel : nat) :
  ∀ top chain rv seen r,
    base_chain this top chain →
    getStruct (ABI.Struct.name top) = Some top →
    NoDup (map ABI.Struct.name chain) →
    (∀ s, s ∈ chain → ABI.Struct.name s ∉ seen) →
    (∀ n, n ∈ seen → is_Some (getStruct n)) →
    loop fuel top rv seen = Some r →
    r = Some (concat (map ABI.Struct.fields (rev chain)) ++ rv).
Proof.
  induction fuel as [|fuel IH];
    intros top chain rv seen r Hchain Hfound Hnd Hfresh Hseen Hrun; [done|].
  simpl in Hrun. rewrite unshift_down_all in Hrun.
  assert (∀ n, n ∈ ({[ABI.Struct.name top]} ∪ seen : gset string) →
               is_Some (getStruct n)) as Hseen'.
  { intros n [->%elem_of_singleton|Hn]%elem_of_union; [by eexists|by apply Hseen]. }
  inversion Hchain as [top' Hend|top' next chain' Hnext Hchain']; subst.
  - case_decide as Hbase.
    { apply Hseen' in Hbase as [? Hbase]. congruence. }
    rewrite Hend in Hrun. injection Hrun as <-.
    simpl. by rewrite app_nil_r.
  - destruct (getStruct_Some _ _ Hnext) as [Hname _].
    simpl in Hnd. apply NoDup_cons in Hnd as [Hnotin Hnd'].
    assert (next ∈ chain') as Hin.
    { inversion Hchain'; subst; apply elem_of_cons; by left. }
    case_decide as Hbase.
    { exfalso. rewrite <- Hname in Hbase.
      apply elem_of_union in Hbase as [Hbase%elem_of_singleton|Hbase].
      - apply Hnotin. rewrite <- Hbase.
        change (map ABI.Struct.name) with (fmap (M:=list) ABI.Struct.name).
        by apply list_elem_of_fmap_2.
      - eapply (Hfresh next); [|done]. apply elem_of_cons. by right. }
    rewrite Hnext in Hrun.
    eapply IH in Hrun; eauto.
    + subst r. f_equal. simpl. rewrite map_app, concat_app. simpl.
      by rewrite app_nil_r, <- app_assoc.
    + by eapply getStruct_found.
    + intros s Hs [Heq%elem_of_singleton|Hs']%elem_of_union.
      * apply Hnotin. rewrite <- Heq.
        change (map ABI.Struct.name) with (fmap (M:=list) ABI.Struct.name).
        by apply list_elem_of_fmap_2.
      * eapply (Hfresh s); [|done]. apply elem_of_cons. by right.
Qed.

(** Along a walk that comes back to a visited name the loop can only
    return undefined. *)
Lemma loop_walk (fuel : nat) :
  ∀ top visited last rv seen r,
    base_walk this top visited last →
    ABI.Struct.base last ∈ seen ∪ list_to_set (map ABI.Struct.name visited) →
    loop fuel top rv seen = Some r →
    r = None.
Proof.
  induction fuel as [|fuel IH];
    intros top visited last rv seen r Hwalk Hrev Hrun; [done|].
  simpl in Hrun. case_decide as Hbase; [congruence|].
  inversion Hwalk as [top'|top' next visited' last' Hnext Hwalk']; subst.
  - exfalso. apply Hbase. set_solver.
  - rewrite Hnext in Hrun. eapply IH in Hrun; eauto. set_solver.
Qed.

(** All fields of a flattened struct are declared by some struct. *)
Lemma loop_fields (fuel : nat) :
  ∀ top rv seen fs,
    getStruct (ABI.Struct.name top) = Some top →
    (∀ f, f ∈ rv → ∃ s, s ∈ ABI.structs this ∧ f ∈ ABI.Struct.fields s) →
    loop fuel top rv seen = Some (Some fs) →
    ∀ f, f ∈ fs → ∃ s, s ∈ ABI.structs this ∧ f ∈ ABI.Struct.fields s.
Proof.
  induction fuel as [|fuel IH]; intros top rv seen fs Hfound Hrv Hrun; [done|].
  simpl in Hrun. rewrite unshift_down_all in Hrun.
  assert (∀ f, f ∈ ABI.Struct.fields top ++ rv →
               ∃ s, s ∈ ABI.structs this ∧ f ∈ ABI.Struct.fields s) as Hrv'.
  { intros f [Hf|Hf]%elem_of_app; [|by apply Hrv].
    exists top. split; [|done]. by destruct (getStruct_Some _ _ Hfound). }
  case_decide; [done|].
  destruct (getStruct (ABI.Struct.base top)) as [next|] eqn:Hnext.
  - eapply IH; [|done..]. by eapply getStruct_found.
  - by injection Hrun as <-.
Qed.

Lemma resolveStruct_fields (name : string) (fs : list ABI.Field.t) :
  ABI.resolveStruct this name = Some (Some fs) →
  ∀ f, f ∈ fs → ABI.Field.type f ∈ ABI.referenced this.
Proof.
  unfold ABI.resolveStruct.
  destruct (getStruct name) as [top|] eqn:Htop; [|done].
  intros Hrun f Hf.
  destruct (loop_fields _ _ _ _ _ (getStruct_found _ _ Htop)
              ltac:(by intros ? ?%elem_of_nil) Hrun f Hf) as (s & Hs & Hfs).
  unfold ABI.referenced. apply elem_of_app. right. apply elem_of_app. left.
  apply list_elem_of_In, in_flat_map. exists s.
  split; [by apply list_elem_of_In|]. apply in_map. by apply list_elem_of_In.
Qed.

(** The two ways the loop returns are the two kinds of base chain. *)
Lemma loop_Some_chain (fuel : nat) :
  ∀ top rv seen fs,
    loop fuel top rv seen = Some (Some fs) → ∃ chain, base_chain this top chain.
Proof.
  induction fuel as [|fuel IH]; intros top rv seen fs Hrun; [done|].
  simpl in Hrun. case_decide; [done|].
  destruct (getStruct (ABI.Struct.base top)) as [next|] eqn:Hnext.
  - destruct (IH _ _ _ _ Hrun) as [chain Hchain].
    exists (top :: chain). by econstructor.
  - exists [top]. by constructor.
Qed.

Lemma loop_None_walk (fuel : nat) :
  ∀ top rv seen,
    loop fuel top rv seen = Some None →
    ∃ visited last,
      base_walk this top visited last
      ∧ ABI.Struct.base last ∈ seen ∪ list_to_set (map ABI.Struct.name visited).
Proof.
  induction fuel as [|fuel IH]; intros top rv seen Hrun; [done|].
  simpl in Hrun. case_decide as Hbase.
  - exists [top], top. split; [constructor|]. set_solver.
  - destruct (getStruct (ABI.Struct.base top)) as [next|] eqn:Hnext; [|done].
    destruct (IH _ _ _ Hrun) as (visited & last & Hwalk & Hrev).
    exists (top :: visited), last. split; [by econstructor|]. set_solver.
Qed.

Lemma base_chain_or_revisits (top : ABI.Struct.t) :
  getStruct (ABI.Struct.name top) = Some top →
  (∃ chain, base_chain this top chain) ∨ revisits this top.
Proof.
  intros Hfound.
  destruct (resolveStruct_total (ABI.Struct.name top)) as [[fs|] Hres];
    unfold ABI.resolveStruct in Hres; rewrite Hfound in Hres.
  - left. by eapply loop_Some_chain.
  - right. destruct (loop_None_walk _ _ _ _ Hres) as (visited & last & Hwalk & Hrev).
    exists visited, last. split; [done|]. set_solver.
Qed.

End FlattenerFacts.

(** ** Reads of the dictionary *)

Section DictionaryFacts.

Lemma read_own (c : gmap string nat) (n : string) (a : nat) :
  c !! n = Some a → ABI.read c n = Some (ABI.Node a).
Proof. intros H. unfold ABI.read. by rewrite H. Qed.

Lemma read_None (c : gmap string nat) (n : string) :
  ABI.read c n = None ↔ c !! n = None ∧ JS.inherited n = false.
Proof.
  unfold ABI.read. destruct (c !! n); [naive_solver|].
  destruct (JS.inherited n); naive_solver.
Qed.

Lemma read_Node (c : gmap string nat) (n : string) (a : nat) :
  ABI.read c n = Some (ABI.Node a) ↔ c !! n = Some a.
Proof.
  unfold ABI.read. destruct (c !! n); [naive_solver|].
  destruct (JS.inherited n); naive_solver.
Qed.

Lemma read_Builtin (c : gmap string nat) (n property : string) :
  ABI.read c n = Some (ABI.Builtin property) ↔
  c !! n = None ∧ JS.inherited n = true ∧ property = n.
Proof.
  unfold ABI.read. destruct (c !! n); [naive_solver|].
  destruct (JS.inherited n); naive_solver.
Qed.

(** A read keeps its answer when own properties are added that hide no
    inherited one. *)
Lemma read_weaken (c c' : gmap string nat) (n : string) (v : ABI.Value) :
  c ⊆ c' → own_only c' → ABI.read c n = Some v → ABI.read c' n = Some v.
Proof.
  intros Hsub Hown. destruct v as [a|property].
  - rewrite !read_Node. intros H. by eapply lookup_weaken.
  - rewrite !read_Builtin. intros (Hn & Hin & ->). repeat split; [|done].
    destruct (c' !! n) as [a|] eqn:Ha; [|done].
    apply Hown in Ha. congruence.
Qed.

Lemma own_only_insert (c : gmap string nat) (n : string) (a : nat) :
  own_only c → JS.inherited n = false → own_only (<[n:=a]> c).
Proof.
  intros Hown Hn k b. rewrite lookup_insert. case_decide; [by intros; subst|].
  apply Hown.
Qed.

End DictionaryFacts.

(** ** The resolver: termination *)

Section ResolverTermination.

Variable this : ABI.Def.

Lemma getAlias_Some (name : string) (alias : ABI.TypeDef.t) :
  ABI.getAlias this name = Some alias →
  ABI.TypeDef.new_type_name alias = name
  ∧ ABI.TypeDef.type alias ∈ ABI.referenced this.
Proof.
  unfold ABI.getAlias. intros [Hin Heq]%find_some.
  apply String.eqb_eq in Heq. split; [done|].
  unfold ABI.referenced. apply elem_of_app. left.
  apply list_elem_of_In. by apply in_map.
Qed.

Lemma getVariant_Some (name : string) (v : ABI.Variant.t) :
  ABI.getVariant this name = Some v →
  ABI.Variant.name v = name
  ∧ ∀ n, n ∈ ABI.Variant.types v → n ∈ ABI.referenced this.
Proof.
  unfold ABI.getVariant. intros [Hin Heq]%find_some.
  apply String.eqb_eq in Heq. split; [done|]. intros n Hn.
  unfold ABI.referenced. apply elem_of_app. right. apply elem_of_app. right.
  apply list_elem_of_In, in_flat_map. exists v.
  split; [done|]. by apply list_elem_of_In.
Qed.

(** [map_st] returns when its callback returns on every element, as long
    as the callback keeps the property [good] of the state. *)
Lemma map_st_total {A B : Type} (f : A → ABI.Pass → option (B * ABI.Pass))
    (good : ABI.Pass → Prop) (l : list A) :
  (∀ x σ, x ∈ l → good σ → ∃ y σ', f x σ = Some (y, σ') ∧ good σ') →
  ∀ σ, good σ → ∃ ys σ', ABI.map_st f l σ = Some (ys, σ') ∧ good σ'.
Proof.
  induction l as [|x l IH]; intros Hf σ Hσ; simpl.
  - by exists [], σ.
  - destruct (Hf x σ) as (y & σ1 & -> & Hσ1); [by left|done|].
    destruct IH with (σ := σ1) as (ys & σ2 & -> & Hσ2); [|done|].
    { intros x' σ' Hx'. apply Hf. by right. }
    by exists (y :: ys), σ2.
Qed.

Section Bounded.

(** [U] is any set of full names closed under the schema's
    references. *)
Variable U : gset string.
Hypothesis U_closed : ∀ n, n ∈ ABI.referenced this → n ∈ U.

Lemma resolve_total (fuel : nat) :
  ∀ name σ,
    name ∈ U →
    size (U ∖ dom (ABI.cache σ)) < fuel →
    ∃ r σ', ABI.resolve this fuel name σ = Some (r, σ')
            ∧ dom (ABI.cache σ) ⊆ dom (ABI.cache σ').
Proof.
  induction fuel as [|fuel IH]; intros name σ Hname Hsize; [lia|].
simpl. destruct (ABI.read (ABI.cache σ) name) as [existing|] eqn:Hread.
{ by exists existing, σ. }
apply read_None in Hread as [Hc _].
rewrite typeName_new.
  set (id := S (ABI.ctx_id σ)).
  set (type := ABI.ResolvedType.new name id).
  set (σ1 := {| ABI.cache := <[name:=id]> (ABI.cache σ); ABI.ctx_id := id;
                ABI.heap := <[id:=type]> (ABI.heap σ) |}).
  assert (dom (ABI.cache σ) ⊆ dom (ABI.cache σ1)) as Hdom.
  { simpl. rewrite dom_insert_L. set_solver. }
  assert (∀ σ2, dom (ABI.cache σ1) ⊆ dom (ABI.cache σ2) →
                size (U ∖ dom (ABI.cache σ2)) < fuel) as Hsmall.
  { intros σ2 Hσ2.
    assert (U ∖ dom (ABI.cache σ2) ⊂ U ∖ dom (ABI.cache σ)) as Hsub.
    { apply not_elem_of_dom in Hc.
      assert (name ∈ dom (ABI.cache σ2)).
      { apply Hσ2. simpl. rewrite dom_insert_L. set_solver. }
      set_solver. }
    apply subset_size in Hsub. lia. }
  destruct (ABI.getAlias this (ABI.ResolvedType.name type)) as [alias|] eqn:Halias.
  { destruct (getAlias_Some _ _ Halias) as [_ Href].
    destruct (IH (ABI.TypeDef.type alias) σ1) as (r & σ2 & -> & Hσ2);
      [by apply U_closed|by apply Hsmall|].
    eexists _, _. split; [done|]. simpl. set_solver. }
  destruct (resolveStruct_total this (ABI.ResolvedType.name type)) as [fs Hfs].
  rewrite Hfs. destruct fs as [fields|].
  { edestruct (map_st_total
                (λ field σ,
                   match ABI.resolve this fuel (ABI.Field.type field) σ with
                   | Some (r, σ) => Some ((ABI.Field.name field, r), σ)
                   | None => None
                   end)
                (λ σ2, dom (ABI.cache σ1) ⊆ dom (ABI.cache σ2)) fields)
      as (frs & σ2 & -> & Hσ2); [|done|].
    { intros f σ2 Hf Hσ2.
      destruct (IH (ABI.Field.type f) σ2) as (r & σ3 & -> & Hσ3).
      - apply U_closed. by eapply resolveStruct_fields.
      - by apply Hsmall.
      - eexists _, _. split; [done|]. set_solver. }
    eexists _, _. split; [done|]. simpl. set_solver. }
  destruct (ABI.getVariant this (ABI.ResolvedType.name type)) as [v|] eqn:Hv.
  { destruct (getVariant_Some _ _ Hv) as [_ Href].
    edestruct (map_st_total (ABI.resolve this fuel)
                (λ σ2, dom (ABI.cache σ1) ⊆ dom (ABI.cache σ2))
                (ABI.Variant.types v))
      as (vs & σ2 & -> & Hσ2); [|done|].
    { intros n σ2 Hn Hσ2.
      destruct (IH n σ2) as (r & σ3 & -> & Hσ3).
      - apply U_closed. by apply Href.
      - by apply Hsmall.
      - eexists _, _. split; [done|]. set_solver. }
    eexists _, _. split; [done|]. simpl. set_solver. }
by exists (ABI.Node id), σ1.
Qed.

End Bounded.

Lemma universe_size (name : string) :
  size (universe this name) < ABI.resolve_fuel this.
Proof.
  unfold universe, ABI.resolve_fuel.
  rewrite size_union_alt, size_singleton.
  assert (size (list_to_set (ABI.referenced this) ∖ {[name]} : gset string)
          ≤ size (list_to_set (ABI.referenced this) : gset string)) as Hle.
  { apply subseteq_size. set_solver. }
  pose proof (size_list_to_set_le (ABI.referenced this)). lia.
Qed.

Lemma resolveType_total (name : string) :
  ∃ r σ, ABI.resolveType this name = Some (r, σ).
Proof.
  unfold ABI.resolveType.
  destruct (resolve_total (universe this name)) with
    (fuel := ABI.resolve_fuel this) (name := name) (σ := ABI.Pass_empty)
    as (r & σ & Hrun & _).
  - intros n Hn. unfold universe. set_solver.
  - unfold universe. set_solver.
  - pose proof (universe_size name).
    assert (size (universe this name ∖ dom (ABI.cache ABI.Pass_empty))
            ≤ size (universe this name)) as Hle.
    { apply subseteq_size. set_solver. }
    lia.
  - by exists r, σ.
Qed.

(** More fuel never changes a result. *)
Lemma loop_fuel_mono (fuel : nat) :
  ∀ fuel' top rv seen r,
    fuel ≤ fuel' →
    ABI.resolveStruct_loop this fuel top rv seen = Some r →
    ABI.resolveStruct_loop this fuel' top rv seen = Some r.
Proof.
  induction fuel as [|fuel IH]; intros [|fuel'] top rv seen r Hle Hrun;
    try done; try lia.
  simpl in *. case_decide; [done|].
  destruct (ABI.getStruct this (ABI.Struct.base top)); [|done].
  apply IH; [lia|done].
Qed.

Lemma map_st_ext {A B : Type} (f g : A → ABI.Pass → option (B * ABI.Pass))
    (l : list A) :
  (∀ x σ res, f x σ = Some res → g x σ = Some res) →
  ∀ σ res, ABI.map_st f l σ = Some res → ABI.map_st g l σ = Some res.
Proof.
  intros Hfg. induction l as [|x l IH]; intros σ res; simpl; [done|].
  destruct (f x σ) as [[y σ1]|] eqn:Hf; [|done].
  rewrite (Hfg _ _ _ Hf).
  destruct (ABI.map_st f l σ1) as [[ys σ2]|] eqn:Hl; [|done].
  by rewrite (IH _ _ Hl).
Qed.

Lemma resolve_fuel_mono (fuel : nat) :
  ∀ fuel' name σ res,
    fuel ≤ fuel' →
    ABI.resolve this fuel name σ = Some res →
    ABI.resolve this fuel' name σ = Some res.
Proof.
  induction fuel as [|fuel IH]; intros [|fuel'] name σ res Hle Hrun;
    try done; try lia.
simpl in *. destruct (ABI.read (ABI.cache σ) name); [done|].
destruct (ABI.getAlias this _).
  { destruct (ABI.resolve this fuel _ _) as [[r σ2]|] eqn:Hr; [|done].
    by rewrite (IH fuel' _ _ _ ltac:(lia) Hr). }
  destruct (ABI.resolveStruct this _) as [[fields|]|]; [| |done].
  { match type of Hrun with
    | match ABI.map_st ?f ?l ?s with _ => _ end = _ =>
        destruct (ABI.map_st f l s) as [[frs σ2]|] eqn:Hm; [|done]
    end.
    eapply map_st_ext in Hm; [rewrite Hm; done|].
    intros f σ' res'. simpl.
    destruct (ABI.resolve this fuel _ _) as [[r σ3]|] eqn:Hr; [|done].
    by rewrite (IH fuel' _ _ _ ltac:(lia) Hr). }
  destruct (ABI.getVariant this _); [|done].
  destruct (ABI.map_st (ABI.resolve this fuel) _ _) as [[vs σ2]|] eqn:Hm; [|done].
  eapply map_st_ext in Hm; [rewrite Hm; done|].
  intros n σ' res'. apply IH. lia.
Qed.

End ResolverTermination.

(** ** The resolver: shape of the graph *)

Section ResolverInvariant.

Variable this : ABI.Def.

Lemma complete_mono (c c' : gmap string nat) (node : ABI.ResolvedType.t) :
  c ⊆ c' → own_only c' → complete this c node → complete this c' node.
Proof.
  intros Hsub Hown. unfold complete.
  destruct (ABI.getAlias this _) as [alias|].
  { intros [(r & Hr & Hc) Hrest]. split; [|done].
    exists r. split; [done|]. by eapply read_weaken. }
  destruct (ABI.resolveStruct this _) as [[fs|]|].
  - intros [(frs & Hf & Hall) Hrest]. split; [|done].
    exists frs. split; [done|].
    eapply Forall2_impl; [exact Hall|]. intros f fr [? ?].
    split; [done|]. by eapply read_weaken.
  - destruct (ABI.getVariant this _) as [v|]; [|done].
    intros [(vs & Hv & Hall) Hrest]. split; [|done].
    exists vs. split; [done|].
    eapply Forall2_impl; [exact Hall|]. intros n r Hnr. simpl in *.
    by eapply read_weaken.
  - destruct (ABI.getVariant this _) as [v|]; [|done].
    intros [(vs & Hv & Hall) Hrest]. split; [|done].
    exists vs. split; [done|].
    eapply Forall2_impl; [exact Hall|]. intros n r Hnr. simpl in *.
    by eapply read_weaken.
Qed.

Lemma typeName_header (n m : ABI.ResolvedType.t) :
  header n = header m → ABI.ResolvedType.typeName n = ABI.ResolvedType.typeName m.
Proof.
  unfold header, ABI.ResolvedType.typeName. intros [= -> _ -> -> ->]. done.
Qed.

Lemma frame_refl (σ : ABI.Pass) : frame σ σ.
Proof. by repeat split. Qed.

Lemma frame_trans (σ1 σ2 σ3 : ABI.Pass) :
  frame σ1 σ2 → frame σ2 σ3 → frame σ1 σ3.
Proof.
  intros (Hid1 & Hc1 & Hh1) (Hid2 & Hc2 & Hh2). repeat split.
  - lia.
  - by etrans.
  - intros a Ha. rewrite Hh2 by lia. by apply Hh1.
Qed.

Lemma frame_assign (σ1 σ2 : ABI.Pass) (a : nat)
    (g : ABI.ResolvedType.t → ABI.ResolvedType.t) :
  frame σ1 σ2 → ABI.ctx_id σ1 < a → frame σ1 (ABI.assign a g σ2).
Proof.
  intros (Hid & Hc & Hh) Ha. repeat split; simpl; [done..|].
  intros b Hb. rewrite lookup_alter_ne by lia. by apply Hh.
Qed.

Lemma pass_inv_empty : pass_inv this ∅ ABI.Pass_empty.
Proof.
  split; unfold own_only; simpl; intros *; try rewrite lookup_empty; set_solver.
Qed.

(** Allocation and registration of a node for a name that is not in the
    dictionary. *)
Lemma pass_inv_register (pending : gset nat) (σ : ABI.Pass) (name : string) :
  let id := S (ABI.ctx_id σ) in
  let σ1 := {| ABI.cache := <[name:=id]> (ABI.cache σ); ABI.ctx_id := id;
               ABI.heap := <[id:=ABI.ResolvedType.new name id]> (ABI.heap σ) |} in
  pass_inv this pending σ →
  ABI.read (ABI.cache σ) name = None →
  pass_inv this (pending ∪ {[id]}) σ1 ∧ frame σ σ1.
Proof.
  intros id σ1 [Hp Hown Hc Hh Hn] [Hnone Hplain]%read_None.
  assert (ABI.cache σ ⊆ ABI.cache σ1) as Hsub by by apply insert_subseteq.
  assert (own_only (ABI.cache σ1)) as Hown1 by by apply own_only_insert.
  split; [split|]; simpl.
  - intros a [Ha|Ha%elem_of_singleton]%elem_of_union; [|lia].
    specialize (Hp a Ha). lia.
  - done.
  - intros n a. rewrite lookup_insert. case_decide as Hn'.
    + intros [= <-]. subst n. eexists. rewrite lookup_insert_eq.
      split; [done|]. apply typeName_new.
    + intros Hna. destruct (Hc n a Hna) as (node & Hnode & Hty).
      exists node. split; [|done].
      destruct (Hh a node Hnode) as (Hrange & _).
      rewrite lookup_insert_ne; [done|lia].
  - intros a node. rewrite lookup_insert. case_decide as Ha.
    + intros [= <-]. subst a. rewrite typeName_new, lookup_insert_eq.
      repeat split; lia.
    + intros Hnode. destruct (Hh a node Hnode) as (Hrange & Hty & Hhd).
      split; [lia|]. split; [|done]. by eapply lookup_weaken.
  - intros a node. rewrite lookup_insert. case_decide as Ha.
    + intros [= <-]. subst a. rewrite decide_True by set_solver.
      apply new_unpopulated.
    + intros Hnode. specialize (Hn a node Hnode).
      destruct (decide (a ∈ pending)) as [Hin|Hnin].
      * rewrite decide_True by set_solver. done.
      * rewrite decide_False by set_solver. by eapply complete_mono.
  - repeat split; simpl; [lia|done|].
    intros a Ha. rewrite lookup_insert_ne; [done|lia].
Qed.

(** The constructing call of the node at [a] ends: the node leaves the
    pending set once it is complete. *)
Lemma pass_inv_finish (pending : gset nat) (σ : ABI.Pass) (a : nat)
    (g : ABI.ResolvedType.t → ABI.ResolvedType.t) (type : ABI.ResolvedType.t) :
  pass_inv this (pending ∪ {[a]}) σ →
  a ∉ pending →
  ABI.heap σ !! a = Some type →
  header (g type) = header type →
  complete this (ABI.cache σ) (g type) →
  pass_inv this pending (ABI.assign a g σ).
Proof.
  intros [Hp Hown Hc Hh Hn] Hnotin Htype Hhd Hcomplete.
  pose proof (typeName_header _ _ Hhd) as Hty. split; simpl.
  - intros b Hb. apply Hp. set_solver.
  - done.
  - intros n b Hnb. destruct (Hc n b Hnb) as (node & Hnode & Hname).
    destruct (decide (a = b)) as [->|Hne].
    + exists (g node). rewrite lookup_alter_eq, Hnode. split; [done|].
      assert (node = type) as -> by congruence. congruence.
    + exists node. by rewrite lookup_alter_ne.
  - intros b node. destruct (decide (a = b)) as [->|Hne].
    + rewrite lookup_alter_eq, Htype. intros [= <-].
      rewrite Hty, Hhd. by apply Hh.
    + rewrite lookup_alter_ne by done. apply Hh.
  - intros b node. destruct (decide (a = b)) as [->|Hne].
    + rewrite lookup_alter_eq, Htype. intros [= <-].
      by rewrite decide_False.
    + rewrite lookup_alter_ne by done. intros Hnode.
      specialize (Hn b node Hnode).
      destruct (decide (b ∈ pending)) as [Hin|Hnin].
      * rewrite decide_True in Hn by set_solver. done.
      * rewrite decide_False in Hn by set_solver. done.
Qed.

Lemma assign_same (σ : ABI.Pass) (a : nat) :
  ABI.assign a (λ node, node) σ = σ.
Proof.
  destruct σ as [c i h]. unfold ABI.assign. simpl. f_equal.
  apply map_eq. intros b. rewrite lookup_alter.
  case_decide; [|done]. subst. by destruct (h !! b).
Qed.

(** [map_st] keeps the invariant when its callback does, and relates
    every element to its result through [Q], read in the final
    dictionary. *)
Lemma map_st_inv {A B : Type} (f : A → ABI.Pass → option (B * ABI.Pass))
    (Q : A → B → gmap string nat → Prop) (pending : gset nat) :
  (∀ x y c c', c ⊆ c' → own_only c' → Q x y c → Q x y c') →
  (∀ x σ y σ', pass_inv this pending σ → f x σ = Some (y, σ') →
     pass_inv this pending σ' ∧ frame σ σ' ∧ Q x y (ABI.cache σ')) →
  ∀ l σ ys σ', pass_inv this pending σ → ABI.map_st f l σ = Some (ys, σ') →
    pass_inv this pending σ' ∧ frame σ σ'
    ∧ Forall2 (λ x y, Q x y (ABI.cache σ')) l ys.
Proof.
  intros HQ Hf. induction l as [|x l IH]; intros σ ys σ' Hinv Hrun; simpl in Hrun.
  - injection Hrun as <- <-.
    split; [done|]. split; [apply frame_refl|constructor].
  - destruct (f x σ) as [[y σ1]|] eqn:Hx; [|done].
    destruct (ABI.map_st f l σ1) as [[ys' σ2]|] eqn:Hl; [|done].
    injection Hrun as <- <-.
    destruct (Hf _ _ _ _ Hinv Hx) as (Hinv1 & Hfr1 & HQ1).
    destruct (IH _ _ _ Hinv1 Hl) as (Hinv2 & Hfr2 & Hall).
    split; [done|]. split; [by eapply frame_trans|].
    constructor; [|done]. eapply HQ; [| |exact HQ1].
    + by destruct Hfr2 as (_ & ? & _).
    + apply (inv_own _ _ _ Hinv2).
Qed.

Lemma resolve_inv (fuel : nat) :
  ∀ name σ pending r σ',
    pass_inv this pending σ →
    ABI.resolve this fuel name σ = Some (r, σ') →
    pass_inv this pending σ' ∧ frame σ σ'
    ∧ ABI.read (ABI.cache σ') name = Some r.
Proof.
  induction fuel as [|fuel IH]; intros name σ pending r σ' Hinv Hrun; [done|].
  simpl in Hrun. destruct (ABI.read (ABI.cache σ) name) as [existing|] eqn:Hread.
  { injection Hrun as <- <-. split; [done|]. split; [apply frame_refl|done]. }
  rewrite typeName_new in Hrun.
  destruct (pass_inv_register pending σ name Hinv Hread) as [Hinv1 Hfr1].
  set (id := S (ABI.ctx_id σ)) in *.
  set (type := ABI.ResolvedType.new name id) in *.
  set (σ1 := {| ABI.cache := <[name:=id]> (ABI.cache σ); ABI.ctx_id := id;
                ABI.heap := <[id:=type]> (ABI.heap σ) |}) in *.
  assert (id ∉ pending) as Hnotin.
  { intros Hin. apply (inv_pending _ _ _ Hinv) in Hin. lia. }
  assert (∀ σ2, frame σ1 σ2 →
                ABI.heap σ2 !! id = Some type
                ∧ ABI.read (ABI.cache σ2) name = Some (ABI.Node id))
    as Hreg.
  { intros σ2 (_ & Hsub & Hheap). split.
    - rewrite Hheap by done. apply lookup_insert_eq.
    - apply read_own. eapply lookup_weaken; [|exact Hsub]. apply lookup_insert_eq. }
  pose proof (new_unpopulated name id) as (Hnf & Hnv & Hnr). fold type in Hnf, Hnv, Hnr.
  destruct (ABI.getAlias this (ABI.ResolvedType.name type)) as [alias|] eqn:Halias.
  { destruct (ABI.resolve this fuel (ABI.TypeDef.type alias) σ1)
      as [[r2 σ2]|] eqn:Hr; [|done].
    injection Hrun as <- <-.
    destruct (IH _ _ _ _ _ Hinv1 Hr) as (Hinv2 & Hfr2 & Hc2).
    destruct (Hreg σ2 Hfr2) as [Hh Hcn].
    split; [|split; [|done]].
    - eapply pass_inv_finish; eauto.
      unfold complete. simpl. rewrite Halias. eauto.
    - apply frame_assign; [by eapply frame_trans|simpl; lia]. }
  destruct (ABI.resolveStruct this (ABI.ResolvedType.name type))
    as [[fields|]|] eqn:Hs; [| |done].
  { match type of Hrun with
    | match ABI.map_st ?f ?l ?s with _ => _ end = _ =>
        destruct (ABI.map_st f l s) as [[frs σ2]|] eqn:Hm; [|done]
    end.
    injection Hrun as <- <-.
    apply (map_st_inv _
             (λ f fr c, fr.1 = ABI.Field.name f
                        ∧ ABI.read c (ABI.Field.type f) = Some fr.2)
             (pending ∪ {[id]})) in Hm; [| | |done].
    - destruct Hm as (Hinv2 & Hfr2 & Hall).
      destruct (Hreg σ2 Hfr2) as [Hh Hcn].
      split; [|split; [|done]].
      + eapply pass_inv_finish; eauto.
        unfold complete. simpl. rewrite Halias, Hs. eauto.
      + apply frame_assign; [by eapply frame_trans|simpl; lia].
    - intros f fr c c' Hsub Hown [? ?]. split; [done|]. by eapply read_weaken.
    - intros f σa fr σb Hinva Hcall.
      destruct (ABI.resolve this fuel (ABI.Field.type f) σa)
        as [[ra σc]|] eqn:Hr; [|done].
      injection Hcall as <- <-.
      destruct (IH _ _ _ _ _ Hinva Hr) as (? & ? & ?). done. }
  destruct (ABI.getVariant this (ABI.ResolvedType.name type)) as [v|] eqn:Hv.
  { destruct (ABI.map_st (ABI.resolve this fuel) (ABI.Variant.types v) σ1)
      as [[vs σ2]|] eqn:Hm; [|done].
    injection Hrun as <- <-.
    apply (map_st_inv _ (λ n r c, ABI.read c n = Some r) (pending ∪ {[id]})) in Hm;
      [| | |done].
    - destruct Hm as (Hinv2 & Hfr2 & Hall).
      destruct (Hreg σ2 Hfr2) as [Hh Hcn].
      split; [|split; [|done]].
      + eapply pass_inv_finish; eauto.
        unfold complete. simpl. rewrite Halias, Hs, Hv. eauto.
      + apply frame_assign; [by eapply frame_trans|simpl; lia].
    - intros n r' c c' Hsub Hown Hn. by eapply read_weaken.
    - intros n σa r' σb Hinva Hcall. by eapply IH. }
  injection Hrun as <- <-.
  destruct (Hreg σ1 (frame_refl σ1)) as [Hh Hcn].
  split; [|done].
  rewrite <- (assign_same σ1 id).
  eapply pass_inv_finish; eauto.
  unfold complete. rewrite Halias, Hs, Hv. done.
Qed.

(** What [resolveType] hands back: a graph in which no node is pending,
    and the value the final dictionary gives for the requested name. *)
Lemma resolveType_inv (name : string) (r : ABI.Value) (σ : ABI.Pass) :
  ABI.resolveType this name = Some (r, σ) →
  pass_inv this ∅ σ ∧ ABI.read (ABI.cache σ) name = Some r.
Proof.
  intros Hrun. unfold ABI.resolveType in Hrun.
  destruct (resolve_inv _ _ _ _ _ _ pass_inv_empty Hrun) as (? & _ & ?). done.
Qed.

Lemma complete_populated (c : gmap string nat) (node : ABI.ResolvedType.t) :
  complete this c node → populated node ≤ 1.
Proof.
  unfold complete, populated, unpopulated.
  destruct (ABI.getAlias this _).
  { intros [(r & -> & _) [-> ->]]. done. }
  destruct (ABI.resolveStruct this _) as [[fs|]|].
  - intros [(frs & -> & _) [-> ->]]. done.
  - destruct (ABI.getVariant this _).
    + intros [(vs & -> & _) [-> ->]]. done.
    + intros (-> & -> & ->). lia.
  - destruct (ABI.getVariant this _).
    + intros [(vs & -> & _) [-> ->]]. done.
    + intros (-> & -> & ->). lia.
Qed.

End ResolverInvariant.

(** ** Variant values *)

Section VariantFacts.

Context {ABITypeDescriptor ABISerializable : Type}.
Variable abiTypeString : ABITypeDescriptor → string.
Variable abiVariant : list ABITypeDescriptor.

Local Abbreviation names := (map abiTypeString abiVariant).

Lemma findIndex_from_found (l : list string) (tag : string) (i : Z) :
  tag ∈ l →
  ∃ n, JS.findIndex_from (λ t, String.eqb t tag) l i = (i + Z.of_nat n)%Z
       ∧ first_match l tag n.
Proof.
  revert i. induction l as [|x l IH]; intros i Hin; [by apply elem_of_nil in Hin|].
  simpl. destruct (String.eqb_spec x tag) as [->|Hne].
  - exists 0. split; [lia|]. split; [done|]. intros; lia.
  - apply elem_of_cons in Hin as [->|Hin]; [done|].
    destruct (IH (i + 1)%Z Hin) as (n & -> & Hn & Hfirst).
    exists (S n). split; [lia|]. split; [done|].
    intros [|j] t Hj; simpl.
    + by intros [= <-].
    + apply Hfirst. lia.
Qed.

Lemma findIndex_from_missing (l : list string) (tag : string) (i : Z) :
  tag ∉ l → JS.findIndex_from (λ t, String.eqb t tag) l i = (-1)%Z.
Proof.
  revert i. induction l as [|x l IH]; intros i Hnin; [done|].
  simpl. destruct (String.eqb_spec x tag) as [->|Hne].
  - exfalso. apply Hnin. by left.
  - apply IH. intros Hin. apply Hnin. by right.
Qed.

Lemma first_match_lt (l : list string) (tag : string) (n : nat) :
  first_match l tag n → n < length l.
Proof. intros [Hn _]. by eapply lookup_lt_Some. Qed.

Lemma new_found (tag : string) (payload : ABISerializable) :
  tag ∈ names →
  ∃ n, Variant.new abiTypeString abiVariant (tag, payload)
       = inr {| Variant.value := payload; Variant.variantIdx := Z.of_nat n |}
       ∧ first_match names tag n.
Proof.
  intros Hin. unfold Variant.new, JS.findIndex. simpl.
  destruct (findIndex_from_found _ _ 0%Z Hin) as (n & -> & Hfirst).
  exists n. split; [|done].
  pose proof (first_match_lt _ _ _ Hfirst) as Hlt. rewrite length_map in Hlt.
  destruct (Z.gtb_spec 0 (0 + Z.of_nat n)); [lia|].
  destruct (Z.leb_spec (Z.of_nat (length abiVariant)) (0 + Z.of_nat n)); [lia|].
  simpl. do 2 f_equal.
Qed.

Lemma new_missing (tag : string) (payload : ABISerializable) :
  tag ∉ names →
  Variant.new abiTypeString abiVariant (tag, payload)
  = inl (JS.Error ("Unknown variant " +:+ tag)).
Proof.
  intros Hnin. unfold Variant.new, JS.findIndex. simpl.
  by rewrite findIndex_from_missing.
Qed.

Lemma variantName_at (payload : ABISerializable) (tag : string) (n : nat) :
  names !! n = Some tag →
  Variant.variantName abiTypeString abiVariant
    {| Variant.value := payload; Variant.variantIdx := Z.of_nat n |} = Some tag.
Proof.
  intros Hn. unfold Variant.variantName, Variant.index. simpl.
  destruct (Z.ltb_spec (Z.of_nat n) 0); [lia|].
  rewrite Nat2Z.id.
  change (map abiTypeString) with (fmap (M:=list) abiTypeString) in Hn.
  rewrite list_lookup_fmap in Hn.
  destruct (abiVariant !! n) as [d|]; [|done]. simpl in Hn. congruence.
Qed.

End VariantFacts.

(** ** Markers at the end of a string *)

Section GrammarMore.

Lemma length_app (s t : string) :
  String.length (s +:+ t) = String.length s + String.length t.
Proof.
  induction s as [|a s IH]; [done|].
  change (String a s +:+ t) with (String a (s +:+ t)). simpl. by rewrite IH.
Qed.

Lemma substring_app_r (s t : string) (k n : nat) :
  substring (String.length s + k) n (s +:+ t) = substring k n t.
Proof.
  induction s as [|a s IH]; [done|].
  change (String a s +:+ t) with (String a (s +:+ t)). simpl. apply IH.
Qed.

Lemma substring_app_l (s t : string) :
  substring 0 (String.length s) (s +:+ t) = s.
Proof.
  induction s as [|a s IH]; [by destruct t|].
  change (String a s +:+ t) with (String a (s +:+ t)). simpl. by rewrite IH.
Qed.

(** A search string no longer than the last piece is looked for in that
    piece alone. *)
Lemma endsWith_app (s t marker : string) :
  String.length marker ≤ String.length t →
  JS.endsWith (s +:+ t) marker = JS.endsWith t marker.
Proof.
  intros Hle. unfold JS.endsWith. rewrite length_app.
  destruct (Nat.leb_spec (String.length marker) (String.length t)) as [_|]; [|lia].
  destruct (Nat.leb_spec (String.length marker)
              (String.length s + String.length t)) as [_|]; [|lia].
  replace (String.length s + String.length t - String.length marker)
    with (String.length s + (String.length t - String.length marker)) by lia.
  by rewrite substring_app_r.
Qed.

Lemma endsWith_refl (marker : string) : JS.endsWith marker marker = true.
Proof.
  unfold JS.endsWith. rewrite Nat.leb_refl, Nat.sub_diag, substring_all.
  apply String.eqb_refl.
Qed.

Lemma strip_appended (marker s : string) :
  0 < String.length marker →
  ABI.ResolvedType.strip marker (s +:+ marker) = (s, true).
Proof.
  intros Hpos. unfold ABI.ResolvedType.strip.
  rewrite endsWith_app, endsWith_refl by done. f_equal.
  rewrite slice_prefix; [|done|rewrite length_app; lia].
  rewrite length_app.
  replace (String.length s + String.length marker - String.length marker)
    with (String.length s) by lia.
  apply substring_app_l.
Qed.

Lemma strip_flagged (marker s : string) (flag : bool) :
  0 < String.length marker →
  (flag = false → JS.endsWith s marker = false) →
  ABI.ResolvedType.strip marker (if flag then s +:+ marker else s) = (s, flag).
Proof.
  intros Hpos Hno. destruct flag; [by apply strip_appended|].
  unfold ABI.ResolvedType.strip. by rewrite Hno.
Qed.

End GrammarMore.

(** ** First matches in a list *)

Section FirstMatch.

Context {A : Type}.

Lemma find_first (p : A → bool) (l1 l2 : list A) (x : A) :
  (∀ y, y ∈ l1 → p y = false) → p x = true →
  find p (l1 ++ x :: l2) = Some x.
Proof.
  intros Hl1 Hx. induction l1 as [|y l1 IH]; simpl.
  - by rewrite Hx.
  - rewrite (Hl1 y) by by left. apply IH. intros z Hz. apply Hl1. by right.
Qed.

Lemma find_absent (p : A → bool) (l : list A) :
  (∀ y, y ∈ l → p y = false) → find p l = None.
Proof.
  intros Hl. induction l as [|y l IH]; simpl; [done|].
  rewrite (Hl y) by by left. apply IH. intros z Hz. apply Hl. by right.
Qed.

End FirstMatch.

Lemma getAlias_first (this : ABI.Def) (name : string) (alias : ABI.TypeDef.t)
    (l1 l2 : list ABI.TypeDef.t) :
  ABI.types this = l1 ++ alias :: l2 →
  ABI.TypeDef.new_type_name alias = name →
  (∀ y, y ∈ l1 → ABI.TypeDef.new_type_name y ≠ name) →
  ABI.getAlias this name = Some alias.
Proof.
  intros Hl Hname Hl1. unfold ABI.getAlias. rewrite Hl. apply find_first.
  - intros y Hy. apply String.eqb_neq. by apply Hl1.
  - by apply String.eqb_eq.
Qed.

Lemma getAlias_absent (this : ABI.Def) (name : string) :
  (∀ y, y ∈ ABI.types this → ABI.TypeDef.new_type_name y ≠ name) →
  ABI.getAlias this name = None.
Proof.
  intros Hl. unfold ABI.getAlias. apply find_absent.
  intros y Hy. apply String.eqb_neq. by apply Hl.
Qed.

Lemma getVariant_first (this : ABI.Def) (name : string) (v : ABI.Variant.t)
    (l1 l2 : list ABI.Variant.t) :
  ABI.variants this = l1 ++ v :: l2 →
  ABI.Variant.name v = name →
  (∀ y, y ∈ l1 → ABI.Variant.name y ≠ name) →
  ABI.getVariant this name = Some v.
Proof.
  intros Hl Hname Hl1. unfold ABI.getVariant. rewrite Hl. apply find_first.
  - intros y Hy. apply String.eqb_neq. by apply Hl1.
  - by apply String.eqb_eq.
Qed.

Lemma getVariant_absent (this : ABI.Def) (name : string) :
  (∀ y, y ∈ ABI.variants this → ABI.Variant.name y ≠ name) →
  ABI.getVariant this name = None.
Proof.
  intros Hl. unfold ABI.getVariant. apply find_absent.
  intros y Hy. apply String.eqb_neq. by apply Hl.
Qed.

(** ** Properties of the type-name grammar *)

Lemma append_nil_r (s : string) : s +:+ "" = s.
Proof.
  induction s as [|a s IH]; [done|].
  change (String a s +:+ "") with (String a (s +:+ "")). by rewrite IH.
Qed.

Lemma append_assoc (s t u : string) : (s +:+ t) +:+ u = s +:+ t +:+ u.
Proof.
  induction s as [|a s IH]; [done|].
  change ((String a s +:+ t) +:+ u) with (String a ((s +:+ t) +:+ u)).
  by rewrite IH.
Qed.

Lemma typeName_suffix (node : ABI.ResolvedType.t) :
  ABI.ResolvedType.typeName node
  = ABI.ResolvedType.name node
    +:+ suffix (ABI.ResolvedType.isArray node) (ABI.ResolvedType.isOptional node)
               (ABI.ResolvedType.isExtension node).
Proof.
  unfold ABI.ResolvedType.typeName, suffix.
  destruct (ABI.ResolvedType.isArray node), (ABI.ResolvedType.isOptional node),
    (ABI.ResolvedType.isExtension node);
    rewrite ?append_assoc; change ("" +:+ ?x) with x; by rewrite ?append_nil_r.
Qed.

(** What [strip] does, said without [endsWith] and [slice]: the flag is
    set exactly when the string is some prefix followed by the marker, and
    the string returned is then that prefix, otherwise the string itself. *)
Lemma strip_spec (marker s : string) :
  0 < String.length marker →
  s = (if (ABI.ResolvedType.strip marker s).2
       then (ABI.ResolvedType.strip marker s).1 +:+ marker
       else (ABI.ResolvedType.strip marker s).1)
  ∧ ((ABI.ResolvedType.strip marker s).2 = false → ∀ p, s ≠ p +:+ marker).
Proof.
  intros Hpos. split; [symmetry; by apply strip_restore|].
  unfold ABI.ResolvedType.strip.
  destruct (JS.endsWith s marker) eqn:E; simpl; [done|].
  intros _ p ->. rewrite endsWith_app, endsWith_refl in E by done. done.
Qed.

(** C5. The constructor looks for the markers at the tail in the order
    dollar sign, question mark, pair of brackets.  [isExtension] is set
    exactly when the full name is some string followed by a dollar sign,
    and that string is what remains; [isOptional] is set exactly when the
    remainder is some string followed by a question mark; [isArray] is set
    exactly when what then remains is some string followed by a pair of
    brackets; the base name is what is left.  [typeName] renders base
    name, array marker, optional marker, extension marker in this order.
    The full name "foo[]?$" parses to the base name "foo" with all three
    flags set and is rendered back as "foo[]?$". *)
Theorem parse_strip_order (fullName : string) (id : nat) :
  let node := ABI.ResolvedType.new fullName id in
  (∃ rest1 rest2,
     fullName = (if ABI.ResolvedType.isExtension node then rest1 +:+ "$" else rest1)
     ∧ (ABI.ResolvedType.isExtension node = false → ∀ p, fullName ≠ p +:+ "$")
     ∧ rest1 = (if ABI.ResolvedType.isOptional node then rest2 +:+ "?" else rest2)
     ∧ (ABI.ResolvedType.isOptional node = false → ∀ p, rest1 ≠ p +:+ "?")
     ∧ rest2 = (if ABI.ResolvedType.isArray node
                then ABI.ResolvedType.name node +:+ "[]"
                else ABI.ResolvedType.name node)
     ∧ (ABI.ResolvedType.isArray node = false → ∀ p, rest2 ≠ p +:+ "[]"))
  ∧ ABI.ResolvedType.typeName node
    = ABI.ResolvedType.name node
      +:+ suffix (ABI.ResolvedType.isArray node)
                 (ABI.ResolvedType.isOptional node)
                 (ABI.ResolvedType.isExtension node)
  ∧ ABI.ResolvedType.new "foo[]?$" id
    = {| ABI.ResolvedType.name := "foo"; ABI.ResolvedType.id := id;
         ABI.ResolvedType.isArray := true; ABI.ResolvedType.isOptional := true;
         ABI.ResolvedType.isExtension := true;
         ABI.ResolvedType.parent := None; ABI.ResolvedType.fields := None;
         ABI.ResolvedType.variant := None; ABI.ResolvedType.ref := None |}
  ∧ ABI.ResolvedType.typeName (ABI.ResolvedType.new "foo[]?$" id) = "foo[]?$".
Proof.
  intros node. split; [|split; [apply typeName_suffix|by split]].
  subst node. unfold ABI.ResolvedType.new.
  destruct (strip_spec "$" fullName) as [H1 N1]; [simpl; lia|].
  destruct (ABI.ResolvedType.strip "$" fullName) as [n1 b1]. simpl in H1, N1.
  destruct (strip_spec "?" n1) as [H2 N2]; [simpl; lia|].
  destruct (ABI.ResolvedType.strip "?" n1) as [n2 b2]. simpl in H2, N2.
  destruct (strip_spec "[]" n2) as [H3 N3]; [simpl; lia|].
  destruct (ABI.ResolvedType.strip "[]" n2) as [n3 b3]. simpl in H3, N3.
  simpl. by exists n1, n2.
Qed.

(** ** Properties of the struct flattener *)

(** C2. When the base chain of the struct called [name] ends, that is the
    walk along [base] reaches a struct whose base names no struct,
    [resolveStruct] returns the fields of the structs of the chain, each
    struct's own fields in declared order, the base-most struct first and
    the struct called [name] last.  For [D] with base [B] this is
    [B]'s fields followed by [D]'s. *)
Theorem resolveStruct_base_first (this : ABI.Def) (name : string)
    (top : ABI.Struct.t) (chain : list ABI.Struct.t) :
  ABI.getStruct this name = Some top →
  base_chain this top chain →
  ABI.resolveStruct this name
  = Some (Some (concat (map ABI.Struct.fields (rev chain)))).
Proof.
  intros Htop Hchain.
  pose proof (getStruct_found _ _ _ Htop) as Hfound.
  destruct (resolveStruct_total this name) as [r Hr]. rewrite Hr.
  unfold ABI.resolveStruct in Hr. rewrite Htop in Hr.
  eapply loop_chain in Hr; [|exact Hchain|done| |set_solver|set_solver].
  - by rewrite Hr, app_nil_r.
  - by eapply base_chain_NoDup.
Qed.

Lemma resolveStruct_base_first_witness :
  ABI.resolveStruct Samples.derived "D"
  = Some (Some [Samples.b0; Samples.b1; Samples.d0]).
Proof.
  apply (resolveStruct_base_first Samples.derived "D" Samples.D
           [Samples.D; Samples.B]).
  - reflexivity.
  - eapply chain_next; [reflexivity|]. apply chain_last. reflexivity.
Defined.



(** What a finished pass holds for a full name it can read. *)
Lemma read_stands_for (this : ABI.Def) (σ : ABI.Pass) (n : string) (v : ABI.Value) :
  pass_inv this ∅ σ →
  ABI.read (ABI.cache σ) n = Some v →
  stands_for σ v n.
Proof.
  intros Hinv Hread. destruct v as [a|property]; simpl.
  - apply read_Node in Hread. split; [by eapply (inv_own _ _ _ Hinv)|].
    split; [done|]. by apply (inv_cache _ _ _ Hinv).
  - apply read_Builtin in Hread as (_ & ? & ?). done.
Qed.

(** For a requested name that every object inherits, the first read of
    the fresh dictionary is answered by the inherited built-in. *)
Lemma resolveType_inherited (this : ABI.Def) (name : string) :
  JS.inherited name = true →
  ABI.resolveType this name = Some (ABI.Builtin name, ABI.Pass_empty).
Proof.
  intros Hin. unfold ABI.resolveType, ABI.resolve_fuel. simpl.
  unfold ABI.read. by rewrite lookup_empty, Hin.
Qed.

(** The root of a returned graph, for a requested name that no object
    inherits: it sits at the address the dictionary gives for the name and
    carries what the constructor parsed from that name. *)
Lemma resolveType_root (this : ABI.Def) (name : string) (r : ABI.Value)
    (σ : ABI.Pass) :
  ABI.resolveType this name = Some (r, σ) →
  JS.inherited name = false →
  ∃ a node,
    r = ABI.Node a
    ∧ ABI.cache σ !! name = Some a
    ∧ ABI.heap σ !! a = Some node
    ∧ ABI.ResolvedType.typeName node = name
    ∧ header node = header (ABI.ResolvedType.new name a)
    ∧ complete this (ABI.cache σ) node.
Proof.
  intros Hrun Hplain. destruct (resolveType_inv _ _ _ _ Hrun) as [Hinv Hread].
  destruct r as [a|property].
  2:{ apply read_Builtin in Hread as (_ & ? & _). congruence. }
  apply read_Node in Hread.
  destruct (inv_cache _ _ _ Hinv _ _ Hread) as (node & Hnode & Hty).
  exists a, node. repeat (split; [done|]).
  destruct (inv_heap _ _ _ Hinv _ _ Hnode) as (_ & _ & Hhd).
  rewrite Hty in Hhd. split; [done|].
  pose proof (inv_nodes _ _ _ Hinv _ _ Hnode) as Hn.
  by rewrite decide_False in Hn by set_solver.
Qed.



(** ** Properties of the resolver *)

(** A name that the dictionary does not answer for gets the next
    address. *)
Lemma resolve_fresh_root (this : ABI.Def) (fuel : nat) (name : string)
    (σ σ' : ABI.Pass) (r : ABI.Value) :
  ABI.read (ABI.cache σ) name = None →
  ABI.resolve this fuel name σ = Some (r, σ') →
  r = ABI.Node (S (ABI.ctx_id σ)).
Proof.
  intros Hc Hrun. destruct fuel as [|fuel]; [done|].
  simpl in Hrun. rewrite Hc in Hrun.
  repeat match type of Hrun with
         | match ?x with _ => _ end = _ => destruct x as [[]|]
         | match ?x with _ => _ end = _ => destruct x as [|]
         | match ?x with _ => _ end = _ => destruct x
         end; try done; by injection Hrun as <- _.
Qed.

(** C1. [resolveType] returns for every schema and every type name, with
    the fuel it supplies and with any larger fuel.  A name that the
    dictionary answers for is answered by what is registered for it, the
    state left as it is; and in the graph returned every node is complete
    with respect to the final dictionary: each alias target, field type
    and variant alternative is what the dictionary holds for that full
    name, so a reference back to a name under construction is the very
    node registered for it. *)
Theorem resolveType_terminates (this : ABI.Def) (name : string) :
  ∃ r σ,
    ABI.resolveType this name = Some (r, σ)
    ∧ (∀ fuel, ABI.resolve_fuel this ≤ fuel →
               ABI.resolve this fuel name ABI.Pass_empty = Some (r, σ))
    ∧ (∀ fuel σ0 v, ABI.read (ABI.cache σ0) name = Some v →
                    ABI.resolve this (S fuel) name σ0 = Some (v, σ0))
    ∧ ABI.read (ABI.cache σ) name = Some r
    ∧ ∀ a node, ABI.heap σ !! a = Some node → complete this (ABI.cache σ) node.
Proof.
  destruct (resolveType_total this name) as (r & σ & Hrun).
  exists r, σ. split; [done|]. split; [|split; [|split]].
  - intros fuel Hfuel. by eapply resolve_fuel_mono.
  - intros fuel σ0 v Hv. simpl. by rewrite Hv.
  - by destruct (resolveType_inv _ _ _ _ Hrun).
  - intros a node Hnode. destruct (resolveType_inv _ _ _ _ Hrun) as [Hinv _].
    pose proof (inv_nodes _ _ _ Hinv _ _ Hnode) as Hn.
    by rewrite decide_False in Hn by set_solver.
Qed.

(** The linked-list schema: the field [head] of the root leads to the
    variant [item], whose first alternative is the root again. *)
Example resolveType_linked :
  ∃ σ, ABI.resolveType Samples.linked "cell" = Some (ABI.Node 1, σ)
       ∧ ABI.ResolvedType.fields <$> ABI.heap σ !! 1
         = Some (Some [("head", ABI.Node 2); ("tail", ABI.Node 5)])
       ∧ ABI.ResolvedType.variant <$> ABI.heap σ !! 2
         = Some (Some [ABI.Node 1; ABI.Node 3; ABI.Node 4])
       ∧ ABI.ResolvedType.variant <$> ABI.heap σ !! 4
         = Some (Some [ABI.Node 1; ABI.Node 3; ABI.Node 4])
       ∧ ABI.ResolvedType.ref <$> ABI.heap σ !! 5 = Some (Some (ABI.Node 6)).
Proof. eexists. split; [vm_compute; reflexivity|]. by vm_compute. Qed.

(** C4, at the failing inputs.  For the requested name "constructor" and
    a schema without declarations the read of the fresh dictionary gives
    the inherited built-in: [resolveType] returns it, allocates no node
    and registers nothing, instead of a leaf node.  For the requested name
    "valueOf" and a schema that declares an alias of that name the alias
    is never looked up and no [ref] is set. *)
Theorem resolveType_inherited_name_no_node :
  ABI.resolveType Samples.empty "constructor"
  = Some (ABI.Builtin "constructor", ABI.Pass_empty)
  ∧ ABI.getAlias Samples.inherited_alias "valueOf"
    = Some (ABI.TypeDef.mk "valueOf" "uint8")
  ∧ ABI.resolveType Samples.inherited_alias "valueOf"
    = Some (ABI.Builtin "valueOf", ABI.Pass_empty).
Proof. repeat split. Qed.

(** Two calls of [resolveType], on "foo" and on "foo[]": each starts its
    counter at 0, so the two roots do not differ in their ids. *)
Lemma separate_calls_same_id_counterexample :
  ¬ (∃ r1 σ1 node1 r2 σ2 node2,
       ABI.resolveType Samples.empty "foo" = Some (ABI.Node r1, σ1)
       ∧ ABI.heap σ1 !! r1 = Some node1
       ∧ ABI.resolveType Samples.empty "foo[]" = Some (ABI.Node r2, σ2)
       ∧ ABI.heap σ2 !! r2 = Some node2
       ∧ ABI.ResolvedType.id node1 ≠ ABI.ResolvedType.id node2).
Proof.
  intros (r1 & σ1 & node1 & r2 & σ2 & node2 & Hrun1 & Hnode1 & Hrun2 & Hnode2 & Hid).
  vm_compute in Hrun1. injection Hrun1 as <- <-.
  vm_compute in Hrun2. injection Hrun2 as <- <-.
  vm_compute in Hnode1. injection Hnode1 as <-.
  vm_compute in Hnode2. injection Hnode2 as <-.
  by apply Hid.
Qed.

(** C6, as the code has it.  For every schema, [resolveType] on "foo" and
    on "foo[]" returns two different nodes with the same base name "foo"
    and the type names "foo" and "foo[]"; each call starts its own
    counter, so both roots carry the id 1.  Inside one pass every full
    name of the dictionary has a node of its own: two different full
    names sit at different addresses, their nodes have different ids, and
    each node renders the full name it is registered under. *)
Theorem resolveType_node_per_full_name (this : ABI.Def) :
  (∃ r1 σ1 node1 r2 σ2 node2,
     ABI.resolveType this "foo" = Some (ABI.Node r1, σ1)
     ∧ ABI.heap σ1 !! r1 = Some node1
     ∧ ABI.resolveType this "foo[]" = Some (ABI.Node r2, σ2)
     ∧ ABI.heap σ2 !! r2 = Some node2
     ∧ node1 ≠ node2
     ∧ ABI.ResolvedType.name node1 = "foo"
     ∧ ABI.ResolvedType.name node2 = "foo"
     ∧ ABI.ResolvedType.typeName node1 = "foo"
     ∧ ABI.ResolvedType.typeName node2 = "foo[]"
     ∧ ABI.ResolvedType.id node1 = 1
     ∧ ABI.ResolvedType.id node2 = 1)
  ∧ ∀ name, ∃ r σ,
      ABI.resolveType this name = Some (r, σ)
      ∧ ∀ full1 full2 a1 a2,
          full1 ≠ full2 →
          ABI.cache σ !! full1 = Some a1 →
          ABI.cache σ !! full2 = Some a2 →
          a1 ≠ a2
          ∧ ∃ n1 n2,
              ABI.heap σ !! a1 = Some n1 ∧ ABI.heap σ !! a2 = Some n2
              ∧ ABI.ResolvedType.id n1 = a1 ∧ ABI.ResolvedType.id n2 = a2
              ∧ ABI.ResolvedType.typeName n1 = full1
              ∧ ABI.ResolvedType.typeName n2 = full2.
Proof.
  split.
  - destruct (resolveType_total this "foo") as (r1 & σ1 & Hrun1).
    destruct (resolveType_total this "foo[]") as (r2 & σ2 & Hrun2).
    destruct (resolveType_root _ _ _ _ Hrun1 eq_refl)
      as (a1 & node1 & -> & _ & Hnode1 & Hty1 & Hhd1 & _).
    destruct (resolveType_root _ _ _ _ Hrun2 eq_refl)
      as (a2 & node2 & -> & _ & Hnode2 & Hty2 & Hhd2 & _).
    assert (a1 = 1) as ->.
    { pose proof (resolve_fresh_root this (ABI.resolve_fuel this) "foo"
                    ABI.Pass_empty σ1 _ eq_refl Hrun1) as H.
      by injection H. }
    assert (a2 = 1) as ->.
    { pose proof (resolve_fresh_root this (ABI.resolve_fuel this) "foo[]"
                    ABI.Pass_empty σ2 _ eq_refl Hrun2) as H.
      by injection H. }
    exists 1, σ1, node1, 1, σ2, node2.
    injection Hhd1 as Hn1 Hi1 _ _ _. injection Hhd2 as Hn2 Hi2 _ _ _.
    repeat (split; [done|]). split; [|done].
    intros ->. rewrite Hty1 in Hty2. discriminate.
  - intros name. destruct (resolveType_total this name) as (r & σ & Hrun).
    exists r, σ. split; [done|].
    destruct (resolveType_inv _ _ _ _ Hrun) as [Hinv _].
    intros full1 full2 a1 a2 Hne H1 H2.
    destruct (inv_cache _ _ _ Hinv _ _ H1) as (n1 & Hn1 & Hty1).
    destruct (inv_cache _ _ _ Hinv _ _ H2) as (n2 & Hn2 & Hty2).
    destruct (inv_heap _ _ _ Hinv _ _ Hn1) as (_ & _ & Hhd1).
    destruct (inv_heap _ _ _ Hinv _ _ Hn2) as (_ & _ & Hhd2).
    split; [congruence|]. exists n1, n2.
    injection Hhd1 as _ Hi1 _ _ _. injection Hhd2 as _ Hi2 _ _ _.
    rewrite id_new in Hi1, Hi2. done.
Qed.

(** One pass over a struct with a field of type "foo" and one of type
    "foo[]": the two field types are the nodes 2 and 3. *)
Example resolveType_two_foos :
  ∃ σ, ABI.resolveType Samples.two_foos "S" = Some (ABI.Node 1, σ)
       ∧ ABI.ResolvedType.fields <$> ABI.heap σ !! 1
         = Some (Some [("one", ABI.Node 2); ("many", ABI.Node 3)])
       ∧ header <$> ABI.heap σ !! 2 = Some ("foo", 2, false, false, false)
       ∧ header <$> ABI.heap σ !! 3 = Some ("foo", 3, true, false, false).
Proof. eexists. split; [vm_compute; reflexivity|]. by vm_compute. Qed.

(** C10. Parsing a full name and rendering the node gives the full name
    back, for every string; a marker that is not in its place at the tail
    stays in the base name, as the dollar sign of "foo$?" does.  Hence the
    dictionary key of a node is the full name that was asked for: whenever
    [resolveType] registers a root for the requested name, which it does
    for every name that no object inherits, the root is registered under
    that name and renders it, and every entry of the dictionary is keyed
    by the type name of its node. *)
Theorem typeName_parse_identity (this : ABI.Def) (fullName : string) (id : nat) :
  ABI.ResolvedType.typeName (ABI.ResolvedType.new fullName id) = fullName
  ∧ header (ABI.ResolvedType.new "foo$?" id) = ("foo$", id, false, true, false)
  ∧ ABI.ResolvedType.typeName (ABI.ResolvedType.new "foo$?" id) = "foo$?"
  ∧ ∃ r σ,
      ABI.resolveType this fullName = Some (r, σ)
      ∧ ABI.read (ABI.cache σ) fullName = Some r
      ∧ (JS.inherited fullName = false →
         ∃ a node,
           r = ABI.Node a
           ∧ ABI.cache σ !! fullName = Some a
           ∧ ABI.heap σ !! a = Some node
           ∧ ABI.ResolvedType.typeName node = fullName)
      ∧ ∀ key a, ABI.cache σ !! key = Some a →
          ∃ n, ABI.heap σ !! a = Some n ∧ ABI.ResolvedType.typeName n = key.
Proof.
  split; [apply typeName_new|]. split; [done|]. split; [done|].
  destruct (resolveType_total this fullName) as (r & σ & Hrun).
  destruct (resolveType_inv _ _ _ _ Hrun) as [Hinv Hread].
  exists r, σ. repeat (split; [done|]). split.
  - intros Hplain.
    destruct (resolveType_root _ _ _ _ Hrun Hplain)
      as (a & node & -> & Hc & Hnode & Hty & _).
    by exists a, node.
  - intros key a Ha. by apply (inv_cache _ _ _ Hinv).
Qed.

(** ** Properties of Variant values *)

(** The error thrown for a tag that no alternative is rendered as is an
    object of the class [Error] itself, not of a class of its own. *)
Lemma unknown_variant_plain_error_counterexample :
  ¬ (∀ (tag : string) (payload : Z) (e : JS.Thrown),
       Variant.new (λ d : string, d) ["int8"; "string"] (tag, payload) = inl e →
       JS.error_name e ≠ "Error").
Proof.
  intros Hclaim.
  by apply (Hclaim "bool" 0%Z (JS.Error "Unknown variant bool")).
Qed.

(** C7, as the code has it.  The constructor either returns a value whose
    [variantIdx] is the position of the first alternative rendered as the
    tag, a valid index into the alternative list, and whose [value] is
    the payload; or it throws an object of the class [Error] with the
    message "Unknown variant " followed by the tag, and it throws exactly
    when no alternative is rendered as the tag.  With the alternatives
    "int8" and "string" the tag "string" gives the index 1 and the tag
    "bool" is refused. *)
Theorem new_variantIdx {ABITypeDescriptor ABISerializable : Type}
    (abiTypeString : ABITypeDescriptor → string)
    (abiVariant : list ABITypeDescriptor)
    (tag : string) (payload : ABISerializable) :
  match Variant.new abiTypeString abiVariant (tag, payload) with
  | inr this =>
      Variant.value this = payload
      ∧ ∃ i, Variant.variantIdx this = Z.of_nat i
             ∧ first_match (map abiTypeString abiVariant) tag i
             ∧ i < length abiVariant
  | inl e =>
      JS.error_name e = "Error"
      ∧ JS.error_message e = "Unknown variant " +:+ tag
      ∧ tag ∉ map abiTypeString abiVariant
  end
  ∧ ((∃ e, Variant.new abiTypeString abiVariant (tag, payload) = inl e)
     ↔ tag ∉ map abiTypeString abiVariant)
  ∧ Variant.new (λ d : string, d) ["int8"; "string"] ("string", payload)
    = inr {| Variant.value := payload; Variant.variantIdx := 1 |}
  ∧ Variant.new (λ d : string, d) ["int8"; "string"] ("bool", payload)
    = inl {| JS.error_name := "Error";
             JS.error_message := "Unknown variant bool" |}.
Proof.
  split; [|split; [|by split]].
  - destruct (decide (tag ∈ map abiTypeString abiVariant)) as [Hin|Hnin].
    + destruct (new_found abiTypeString abiVariant tag payload Hin)
        as (n & -> & Hfirst).
      split; [done|]. exists n. split; [done|]. split; [done|].
      pose proof (first_match_lt _ _ _ Hfirst) as Hlt.
      by rewrite length_map in Hlt.
    + by rewrite (new_missing abiTypeString abiVariant tag payload Hnin).
  - split.
    + intros [e He] Hin.
      destruct (new_found abiTypeString abiVariant tag payload Hin) as (n & Hn & _).
      congruence.
    + intros Hnin. eexists. by apply new_missing.
Qed.

(** C8. For a tag that some alternative is rendered as, the constructor
    returns a value and [variantName] of that value is the tag. *)
Theorem variantName_inverse {ABITypeDescriptor ABISerializable : Type}
    (abiTypeString : ABITypeDescriptor → string)
    (abiVariant : list ABITypeDescriptor)
    (tag : string) (payload : ABISerializable) :
  tag ∈ map abiTypeString abiVariant →
  ∃ this,
    Variant.new abiTypeString abiVariant (tag, payload) = inr this
    ∧ Variant.variantName abiTypeString abiVariant this = Some tag.
Proof.
  intros Hin.
  destruct (new_found abiTypeString abiVariant tag payload Hin)
    as (n & Hnew & Hn & _).
  eexists. split; [exact Hnew|]. by apply variantName_at.
Qed.

Lemma variantName_inverse_witness :
  ∃ this,
    Variant.new (λ d : string, d) ["int8"; "string"] ("string", 7%Z) = inr this
    ∧ Variant.variantName (λ d : string, d) ["int8"; "string"] this = Some "string".
Proof.
  apply (variantName_inverse (λ d : string, d) ["int8"; "string"] "string" 7%Z).
  apply elem_of_cons. right. apply elem_of_cons. left. reflexivity.
Defined.

(** C9. For a value returned by the constructor, [toJSON] is the array of
    two elements that holds [variantName], which is the tag, first and
    [value], which is the payload, second. *)
Theorem toJSON_pair {ABITypeDescriptor ABISerializable : Type}
    (abiTypeString : ABITypeDescriptor → string)
    (abiVariant : list ABITypeDescriptor)
    (tag : string) (payload : ABISerializable)
    (this : Variant.t (ABISerializable:=ABISerializable)) :
  Variant.new abiTypeString abiVariant (tag, payload) = inr this →
  ∃ name,
    Variant.variantName abiTypeString abiVariant this = Some name
    ∧ Variant.toJSON abiTypeString abiVariant this
      = Some [Variant.JSONString name; Variant.JSONValue (Variant.value this)]
    ∧ name = tag
    ∧ Variant.value this = payload.
Proof.
  intros Hnew.
  destruct (decide (tag ∈ map abiTypeString abiVariant)) as [Hin|Hnin].
  - destruct (new_found abiTypeString abiVariant tag payload Hin)
      as (n & Hn & Hat & _).
    rewrite Hn in Hnew. injection Hnew as <-.
    exists tag. unfold Variant.toJSON.
    rewrite (variantName_at abiTypeString abiVariant payload tag n Hat). done.
  - rewrite (new_missing abiTypeString abiVariant tag payload Hnin) in Hnew. done.
Qed.

Lemma toJSON_pair_witness :
  Variant.toJSON (λ d : string, d) ["int8"; "string"]
    {| Variant.value := 7%Z; Variant.variantIdx := 1 |}
  = Some [Variant.JSONString "string"; Variant.JSONValue 7%Z].
Proof.
  destruct (toJSON_pair (λ d : string, d) ["int8"; "string"] "string" 7%Z
              {| Variant.value := 7%Z; Variant.variantIdx := 1 |} eq_refl)
    as (name & _ & Hjson & -> & _).
  exact Hjson.
Defined.

(** * Further properties *)

(** ** The struct flattener, continued *)

Section FlattenerMore.

Variable this : ABI.Def.

Lemma resolveStruct_of_chain (name : string) (top : ABI.Struct.t)
    (chain : list ABI.Struct.t) :
  ABI.getStruct this name = Some top →
  base_chain this top chain →
  ABI.resolveStruct this name
  = Some (Some (concat (map ABI.Struct.fields (rev chain)))).
Proof.
  intros Htop Hchain.
  pose proof (getStruct_found _ _ _ Htop) as Hfound.
  destruct (resolveStruct_total this name) as [r Hr]. rewrite Hr.
  unfold ABI.resolveStruct in Hr. rewrite Htop in Hr.
  eapply loop_chain in Hr; [|exact Hchain|done| |set_solver|set_solver].
  - by rewrite Hr, app_nil_r.
  - by eapply base_chain_NoDup.
Qed.

Lemma resolveStruct_of_revisit (name : string) (top : ABI.Struct.t) :
  ABI.getStruct this name = Some top →
  revisits this top →
  ABI.resolveStruct this name = Some None.
Proof.
  intros Htop (visited & last & Hwalk & Hrev).
  destruct (resolveStruct_total this name) as [res Hres].
  rewrite Hres. f_equal.
  unfold ABI.resolveStruct in Hres. rewrite Htop in Hres.
  eapply loop_walk; [exact Hwalk| |exact Hres]. set_solver.
Qed.

Lemma base_chain_head (top : ABI.Struct.t) (chain : list ABI.Struct.t) :
  base_chain this top chain → ∃ rest, chain = top :: rest.
Proof. destruct 1; by eexists. Qed.

End FlattenerMore.

(** X1. The loop of [resolveStruct] returns for every schema and every
    name within as many rounds as the schema has structs; more rounds
    never change what it returns. *)
Theorem resolveStruct_rounds (this : ABI.Def) (name : string) :
  ∃ res,
    ABI.resolveStruct this name = Some res
    ∧ ∀ top fuel,
        ABI.getStruct this name = Some top →
        length (ABI.structs this) ≤ fuel →
        ABI.resolveStruct_loop this fuel top [] ∅ = Some res.
Proof.
  destruct (resolveStruct_total this name) as [res Hres].
  exists res. split; [done|]. intros top fuel Htop Hfuel.
  unfold ABI.resolveStruct in Hres. rewrite Htop in Hres.
  by eapply loop_fuel_mono.
Qed.

(** X2. [resolveStruct] returns a field list exactly when the named struct
    exists and its base chain ends, and the list is then the fields of the
    chain, base-most struct first; it returns undefined exactly when no
    struct has the name or the base chain comes back to a visited name. *)
Theorem resolveStruct_cases (this : ABI.Def) (name : string) :
  (∀ fs, ABI.resolveStruct this name = Some (Some fs)
         ↔ ∃ top chain,
             ABI.getStruct this name = Some top
             ∧ base_chain this top chain
             ∧ fs = concat (map ABI.Struct.fields (rev chain)))
  ∧ (ABI.resolveStruct this name = Some None
     ↔ ABI.getStruct this name = None
       ∨ ∃ top, ABI.getStruct this name = Some top ∧ revisits this top).
Proof.
  split; [intros fs|]; split.
  - intros Hres. pose proof Hres as Hrun. unfold ABI.resolveStruct in Hrun.
    destruct (ABI.getStruct this name) as [top|] eqn:Htop; [|done].
    destruct (loop_Some_chain _ _ _ _ _ _ Hrun) as [chain Hchain].
    exists top, chain. split; [done|]. split; [done|].
    rewrite (resolveStruct_of_chain _ _ _ _ Htop Hchain) in Hres. congruence.
  - intros (top & chain & Htop & Hchain & ->).
    by apply (resolveStruct_of_chain this name top).
  - intros Hres. unfold ABI.resolveStruct in Hres.
    destruct (ABI.getStruct this name) as [top|] eqn:Htop; [|by left].
    right. exists top. split; [done|].
    destruct (loop_None_walk _ _ _ _ _ Hres) as (visited & last & Hwalk & Hrev).
    exists visited, last. split; [done|]. set_solver.
  - intros [Hnone|(top & Htop & Hrev)].
    + unfold ABI.resolveStruct. by rewrite Hnone.
    + by eapply resolveStruct_of_revisit.
Qed.

(** X3. A field list returned by [resolveStruct] ends with the named
    struct's own fields, holds nothing else when the struct's base names
    no struct, and every field in it is declared by a struct of the
    schema. *)
Theorem resolveStruct_own_fields_last (this : ABI.Def) (name : string)
    (fs : list ABI.Field.t) :
  ABI.resolveStruct this name = Some (Some fs) →
  ∃ top inherited,
    ABI.getStruct this name = Some top
    ∧ fs = inherited ++ ABI.Struct.fields top
    ∧ (ABI.getStruct this (ABI.Struct.base top) = None → inherited = [])
    ∧ ∀ f, f ∈ fs → ∃ s, s ∈ ABI.structs this ∧ f ∈ ABI.Struct.fields s.
Proof.
  intros Hres. pose proof Hres as Hrun. unfold ABI.resolveStruct in Hrun.
  destruct (ABI.getStruct this name) as [top|] eqn:Htop; [|done].
  destruct (loop_Some_chain _ _ _ _ _ _ Hrun) as [chain Hchain].
  destruct (base_chain_head _ _ _ Hchain) as [rest ->].
  rewrite (resolveStruct_of_chain _ _ _ _ Htop Hchain) in Hres.
  injection Hres as <-.
  exists top, (concat (map ABI.Struct.fields (rev rest))).
  split; [done|]. split; [|split].
  - simpl. rewrite map_app, concat_app. simpl. by rewrite app_nil_r.
  - intros Hend.
    assert (top :: rest = [top]) as [= ->].
    { eapply base_chain_det; [exact Hchain|]. by constructor. }
    done.
  - eapply loop_fields; [by eapply getStruct_found| |exact Hrun].
    by intros ? ?%elem_of_nil.
Qed.

Lemma resolveStruct_own_fields_last_witness :
  ∃ top inherited,
    ABI.getStruct Samples.derived "D" = Some top
    ∧ [Samples.b0; Samples.b1; Samples.d0] = inherited ++ ABI.Struct.fields top.
Proof.
  destruct (resolveStruct_own_fields_last Samples.derived "D"
              [Samples.b0; Samples.b1; Samples.d0] eq_refl)
    as (top & inherited & Htop & Hfs & _).
  exists top, inherited. split; [exact Htop|exact Hfs].
Defined.

(** ** Construction of a schema store *)

(** X18. The constructor never leaves the version empty: a missing or
    empty version is replaced by "eosio::abi/1.1" and any other version
    is kept; a missing list becomes the empty list and a given list is
    kept, so a schema built from nothing has no alias, struct or
    variant. *)
Theorem constructor_defaults (args : ABI.PartialDef) :
  ABI.version (ABI.constructor args) ≠ ""
  ∧ (∀ v, ABI.arg_version args = Some v → v ≠ "" →
          ABI.version (ABI.constructor args) = v)
  ∧ (ABI.arg_version args = None ∨ ABI.arg_version args = Some "" →
     ABI.version (ABI.constructor args) = "eosio::abi/1.1")
  ∧ (∀ l, ABI.arg_types args = Some l → ABI.types (ABI.constructor args) = l)
  ∧ (∀ l, ABI.arg_variants args = Some l → ABI.variants (ABI.constructor args) = l)
  ∧ (∀ l, ABI.arg_structs args = Some l → ABI.structs (ABI.constructor args) = l)
  ∧ (ABI.arg_types args = None → ABI.types (ABI.constructor args) = [])
  ∧ (ABI.arg_variants args = None → ABI.variants (ABI.constructor args) = [])
  ∧ (ABI.arg_structs args = None → ABI.structs (ABI.constructor args) = []).
Proof.
  destruct args as [v ts vs ss]. simpl. unfold ABI.or_string.
  split; [|split; [|split]].
  - destruct v as [v|]; [|done]. by destruct (String.eqb_spec v "").
  - intros v' [= ->] Hne. by destruct (String.eqb_spec v' "").
  - by intros [->| ->].
  - repeat split; by intros; simplify_eq.
Qed.

(** ** The type-name grammar, continued *)

(** X4. Rendering then parsing: for a base name that ends in none of the
    three markers, and any choice of the three flags, the constructor
    reads the rendered full name back into the same base name and the
    same flags. *)
Theorem new_of_rendered (base : string) (isArray isOptional isExtension : bool)
    (id : nat) :
  JS.endsWith base "$" = false →
  JS.endsWith base "?" = false →
  JS.endsWith base "[]" = false →
  header (ABI.ResolvedType.new (base +:+ suffix isArray isOptional isExtension) id)
  = (base, id, isArray, isOptional, isExtension).
Proof.
  intros Hext Hopt Harr.
  pose proof (typeName_suffix
                {| ABI.ResolvedType.name := base; ABI.ResolvedType.id := id;
                   ABI.ResolvedType.isArray := isArray;
                   ABI.ResolvedType.isOptional := isOptional;
                   ABI.ResolvedType.isExtension := isExtension;
                   ABI.ResolvedType.parent := None;
                   ABI.ResolvedType.fields := None;
                   ABI.ResolvedType.variant := None;
                   ABI.ResolvedType.ref := None |}) as Hrender.
  simpl in Hrender. rewrite <- Hrender.
  unfold ABI.ResolvedType.typeName, ABI.ResolvedType.new. simpl.
  rewrite (strip_flagged "$"); [|simpl; lia|].
  2:{ intros _. destruct isOptional, isArray;
        rewrite ?endsWith_app by (simpl; lia); done. }
  simpl. rewrite (strip_flagged "?"); [|simpl; lia|].
  2:{ intros _. destruct isArray; rewrite ?endsWith_app by (simpl; lia); done. }
  simpl. rewrite (strip_flagged "[]"); [done|simpl; lia|done].
Qed.

Lemma new_of_rendered_witness :
  header (ABI.ResolvedType.new "uint64[]$" 4) = ("uint64", 4, true, false, true).
Proof.
  apply (new_of_rendered "uint64" true false true 4); reflexivity.
Defined.

(** ** The resolver, continued *)

Section ResolverMore.

Variable this : ABI.Def.

Lemma map_st_pres {A B : Type} (f : A → ABI.Pass → option (B * ABI.Pass))
    (I : ABI.Pass → Prop) (l : list A) :
  (∀ x σ y σ', x ∈ l → I σ → f x σ = Some (y, σ') → I σ') →
  ∀ σ ys σ', I σ → ABI.map_st f l σ = Some (ys, σ') → I σ'.
Proof.
  induction l as [|x l IH]; intros Hf σ ys σ' Hσ Hrun; simpl in Hrun.
  - by injection Hrun as _ <-.
  - destruct (f x σ) as [[y σ1]|] eqn:Hx; [|done].
    destruct (ABI.map_st f l σ1) as [[ys' σ2]|] eqn:Hl; [|done].
    injection Hrun as _ <-.
    eapply IH; [|eapply Hf; [by left|exact Hσ|exact Hx]|exact Hl].
    intros x' σa y' σb Hx'. apply Hf. by right.
Qed.

Lemma frame_register (name : string) (σ : ABI.Pass) :
  ABI.cache σ !! name = None → frame σ (register name σ).
Proof.
  intros Hc. repeat split; simpl; [lia|by apply insert_subseteq|].
  intros a Ha. rewrite lookup_insert_ne; [done|lia].
Qed.

(** A call only adds: the counter does not go down, the dictionary keeps
    its entries and the nodes that were there stay as they were. *)
Lemma resolve_frame (fuel : nat) :
  ∀ name σ r σ', ABI.resolve this fuel name σ = Some (r, σ') → frame σ σ'.
Proof.
  induction fuel as [|fuel IH]; intros name σ r σ' Hrun; [done|].
  simpl in Hrun. destruct (ABI.read (ABI.cache σ) name) as [existing|] eqn:Hread.
  { injection Hrun as _ <-. apply frame_refl. }
  apply read_None in Hread as [Hc _].
  rewrite typeName_new in Hrun.
  change {| ABI.cache := _; ABI.ctx_id := _; ABI.heap := _ |}
    with (register name σ) in Hrun.
  pose proof (frame_register name σ Hc) as Hreg.
  assert (∀ σ2 g, frame (register name σ) σ2 →
                  frame σ (ABI.assign (S (ABI.ctx_id σ)) g σ2)) as Hdone.
  { intros σ2 g Hfr. apply frame_assign; [by eapply frame_trans|lia]. }
  destruct (ABI.getAlias this _) as [alias|].
  { destruct (ABI.resolve this fuel _ _) as [[r2 σ2]|] eqn:Hr; [|done].
    injection Hrun as _ <-. apply Hdone. by eapply IH. }
  destruct (ABI.resolveStruct this _) as [[fields|]|]; [| |done].
  { match type of Hrun with
    | match ABI.map_st ?f ?l ?s with _ => _ end = _ =>
        destruct (ABI.map_st f l s) as [[frs σ2]|] eqn:Hm; [|done]
    end.
    injection Hrun as _ <-. apply Hdone.
    eapply (map_st_pres _ (frame (register name σ))) in Hm; [done| |apply frame_refl].
    intros f σa y σb _ Hfr Hcall.
    destruct (ABI.resolve this fuel _ σa) as [[ra σc]|] eqn:Hr; [|done].
    injection Hcall as _ <-. eapply frame_trans; [exact Hfr|]. by eapply IH. }
  destruct (ABI.getVariant this _) as [v|].
  { destruct (ABI.map_st _ _ _) as [[vs σ2]|] eqn:Hm; [|done].
    injection Hrun as _ <-. apply Hdone.
    eapply (map_st_pres _ (frame (register name σ))) in Hm; [done| |apply frame_refl].
    intros n σa y σb _ Hfr Hcall. eapply frame_trans; [exact Hfr|]. by eapply IH. }
  by injection Hrun as _ <-.
Qed.

Lemma map_st_frame {A B : Type} (f : A → ABI.Pass → option (B * ABI.Pass))
    (l : list A) :
  (∀ x σ y σ', f x σ = Some (y, σ') → frame σ σ') →
  ∀ σ ys σ', ABI.map_st f l σ = Some (ys, σ') → frame σ σ'.
Proof.
  intros Hf σ ys σ' Hrun.
  eapply (map_st_pres f (frame σ)); [|apply frame_refl|exact Hrun].
  intros x σa y σb _ Hfr Hcall. eapply frame_trans; [exact Hfr|]. by eapply Hf.
Qed.

(** The node a call returns is the dictionary's node for the name. *)
Lemma resolve_cached (fuel : nat) (name : string) (σ σ' : ABI.Pass)
    (r : ABI.Value) :
  ABI.resolve this fuel name σ = Some (r, σ') →
  ABI.read (ABI.cache σ') name = Some r.
Proof.
  intros Hrun. destruct fuel as [|fuel]; [done|].
  simpl in Hrun. destruct (ABI.read (ABI.cache σ) name) as [existing|] eqn:Hread.
  { by injection Hrun as <- <-. }
  apply read_None in Hread as [Hc _].
  rewrite typeName_new in Hrun.
  change {| ABI.cache := _; ABI.ctx_id := _; ABI.heap := _ |}
    with (register name σ) in Hrun.
  assert (∀ σ2, frame (register name σ) σ2 →
                ABI.read (ABI.cache σ2) name = Some (ABI.Node (S (ABI.ctx_id σ))))
    as Hkeep.
  { intros σ2 (_ & Hsub & _). apply read_own.
    eapply lookup_weaken; [|exact Hsub]. apply lookup_insert_eq. }
  destruct (ABI.getAlias this _) as [alias|].
  { destruct (ABI.resolve this fuel _ _) as [[r2 σ2]|] eqn:Hr; [|done].
    injection Hrun as <- <-. simpl. apply Hkeep. by eapply resolve_frame. }
  destruct (ABI.resolveStruct this _) as [[fields|]|]; [| |done].
  { match type of Hrun with
    | match ABI.map_st ?f ?l ?s with _ => _ end = _ =>
        destruct (ABI.map_st f l s) as [[frs σ2]|] eqn:Hm; [|done]
    end.
    injection Hrun as <- <-. simpl. apply Hkeep.
    eapply map_st_frame; [|exact Hm]. intros f σa y σb Hcall. simpl in Hcall.
    destruct (ABI.resolve this fuel _ σa) as [[ra σc]|] eqn:Hr; [|done].
    injection Hcall as _ <-. by eapply resolve_frame. }
  destruct (ABI.getVariant this _) as [v|].
  { destruct (ABI.map_st _ _ _) as [[vs σ2]|] eqn:Hm; [|done].
    injection Hrun as <- <-. simpl. apply Hkeep.
    eapply map_st_frame; [|exact Hm]. intros n σa y σb Hcall.
    by eapply resolve_frame. }
  injection Hrun as <- <-. apply Hkeep, frame_refl.
Qed.

(** Induction principle for the states of a pass: a property kept by
    registration and by assignment to a node is kept by [resolve]. *)
Lemma resolve_preserves (U : gset string) (I : ABI.Pass → Prop) :
  (∀ n, n ∈ ABI.referenced this → n ∈ U) →
  (∀ σ name, name ∈ U → I σ → ABI.read (ABI.cache σ) name = None →
             I (register name σ)) →
  (∀ σ a g, I σ → I (ABI.assign a g σ)) →
  ∀ fuel name σ r σ',
    name ∈ U → I σ → ABI.resolve this fuel name σ = Some (r, σ') → I σ'.
Proof.
  intros Hclosed Hreg Hassign.
  induction fuel as [|fuel IH]; intros name σ r σ' Hname Hσ Hrun; [done|].
  simpl in Hrun. destruct (ABI.read (ABI.cache σ) name) as [existing|] eqn:Hc.
  { by injection Hrun as _ <-. }
  rewrite typeName_new in Hrun.
  change {| ABI.cache := _; ABI.ctx_id := _; ABI.heap := _ |}
    with (register name σ) in Hrun.
  pose proof (Hreg σ name Hname Hσ Hc) as Hσ1.
  destruct (ABI.getAlias this _) as [alias|] eqn:Halias.
  { destruct (ABI.resolve this fuel _ _) as [[r2 σ2]|] eqn:Hr; [|done].
    injection Hrun as _ <-. apply Hassign.
    eapply IH; [|exact Hσ1|exact Hr].
    apply Hclosed. by destruct (getAlias_Some _ _ _ Halias). }
  destruct (ABI.resolveStruct this _) as [[fields|]|] eqn:Hs; [| |done].
  { match type of Hrun with
    | match ABI.map_st ?f ?l ?s with _ => _ end = _ =>
        destruct (ABI.map_st f l s) as [[frs σ2]|] eqn:Hm; [|done]
    end.
    injection Hrun as _ <-. apply Hassign.
    eapply (map_st_pres _ I) in Hm; [done| |done].
    intros f σa y σb Hf Hσa Hcall.
    destruct (ABI.resolve this fuel _ σa) as [[ra σc]|] eqn:Hr; [|done].
    injection Hcall as _ <-. eapply IH; [|exact Hσa|exact Hr].
    apply Hclosed. by eapply resolveStruct_fields. }
  destruct (ABI.getVariant this _) as [v|] eqn:Hv.
  { destruct (ABI.map_st _ _ _) as [[vs σ2]|] eqn:Hm; [|done].
    injection Hrun as _ <-. apply Hassign.
    eapply (map_st_pres _ I) in Hm; [done| |done].
    intros n σa y σb Hn Hσa Hcall. eapply IH; [|exact Hσa|exact Hcall].
    apply Hclosed. destruct (getVariant_Some _ _ _ Hv) as [_ Href]. by apply Href. }
  by injection Hrun as _ <-.
Qed.

Lemma universe_closed (name : string) :
  ∀ n, n ∈ ABI.referenced this → n ∈ universe this name.
Proof. intros n Hn. unfold universe. set_solver. Qed.

Lemma resolveType_dense (name : string) (r : ABI.Value) (σ : ABI.Pass) :
  ABI.resolveType this name = Some (r, σ) → dense σ.
Proof.
  intros Hrun. unfold ABI.resolveType in Hrun.
  eapply (resolve_preserves (universe this name) dense (universe_closed name));
    [| | |split|exact Hrun].
  - intros σ0 n _ [Hheap Hsize] [Hc _]%read_None. split; simpl.
    + intros a Ha. destruct (decide (a = S (ABI.ctx_id σ0))) as [->|Hne].
      * rewrite lookup_insert_eq. by eexists.
      * rewrite lookup_insert_ne by done. apply Hheap. lia.
    + rewrite map_size_insert_None by done. by rewrite Hsize.
  - intros σ0 a g [Hheap Hsize]. split; simpl; [|done].
    intros b Hb. destruct (Hheap b Hb) as [node Hnode].
    rewrite lookup_alter. case_decide; subst; rewrite Hnode; simpl; by eexists.
  - unfold universe. set_solver.
  - simpl. intros a Ha. lia.
  - simpl. apply map_size_empty.
Qed.

Lemma resolveType_keys (name : string) (r : ABI.Value) (σ : ABI.Pass) :
  ABI.resolveType this name = Some (r, σ) →
  dom (ABI.cache σ) ⊆ universe this name.
Proof.
  intros Hrun. unfold ABI.resolveType in Hrun.
  eapply (resolve_preserves (universe this name)
            (λ σ, dom (ABI.cache σ) ⊆ universe this name) (universe_closed name));
    [| | | |exact Hrun].
  - intros σ0 n Hn Hdom _. simpl. rewrite dom_insert_L. set_solver.
  - done.
  - unfold universe. set_solver.
  - simpl. set_solver.
Qed.

End ResolverMore.

Lemma resolveType_complete (this : ABI.Def) (name : string) (r : ABI.Value)
    (σ : ABI.Pass) (a : nat) (node : ABI.ResolvedType.t) :
  ABI.resolveType this name = Some (r, σ) →
  ABI.heap σ !! a = Some node →
  complete this (ABI.cache σ) node
  ∧ ABI.ResolvedType.id node = a
  ∧ 0 < a ≤ ABI.ctx_id σ
  ∧ ∀ key v, ABI.read (ABI.cache σ) key = Some v → stands_for σ v key.
Proof.
  intros Hrun Hnode. destruct (resolveType_inv _ _ _ _ Hrun) as [Hinv _].
  pose proof (inv_nodes _ _ _ Hinv _ _ Hnode) as Hn.
  rewrite decide_False in Hn by set_solver.
  destruct (inv_heap _ _ _ Hinv _ _ Hnode) as (Hrange & _ & Hhd).
  split; [done|]. split; [|split; [done|]].
  - injection Hhd as _ Hid _ _ _. by rewrite id_new in Hid.
  - intros key v Hkey. by eapply read_stands_for.
Qed.

Lemma Forall2_fun {A B : Type} (P : A → B → Prop) (l : list A) (l1 l2 : list B) :
  (∀ x y1 y2, P x y1 → P x y2 → y1 = y2) →
  Forall2 P l l1 → Forall2 P l l2 → l1 = l2.
Proof.
  intros HP H1. revert l2.
  induction H1 as [|x y l l1 Hxy _ IH]; intros l2 H2; inversion H2; subst; [done|].
  f_equal; [by eapply HP|by apply IH].
Qed.

(** X5. For a requested name that no object inherits the root of the
    graph is the node at address 1; for a name that every object inherits
    the built-in of that name is returned and the counter stays at 0.  In
    both cases the nodes fill the addresses from 1 to the final counter
    without a gap, each node carries its address as [id], and there are
    as many nodes as the dictionary has full names. *)
Theorem resolveType_ids (this : ABI.Def) (name : string) :
  ∃ r σ,
    ABI.resolveType this name = Some (r, σ)
    ∧ (JS.inherited name = false → r = ABI.Node 1)
    ∧ (JS.inherited name = true → r = ABI.Builtin name ∧ ABI.ctx_id σ = 0)
    ∧ (∀ a, is_Some (ABI.heap σ !! a) ↔ 0 < a ≤ ABI.ctx_id σ)
    ∧ (∀ a node, ABI.heap σ !! a = Some node → ABI.ResolvedType.id node = a)
    ∧ size (ABI.cache σ) = ABI.ctx_id σ.
Proof.
  destruct (resolveType_total this name) as (r & σ & Hrun).
  exists r, σ. split; [done|].
  destruct (resolveType_dense _ _ _ _ Hrun) as [Hheap Hsize].
  split; [|split; [|split; [|split; [|done]]]].
  - intros Hplain.
    apply (resolve_fresh_root this (ABI.resolve_fuel this) name ABI.Pass_empty σ);
      [|exact Hrun].
    apply read_None. split; [apply lookup_empty|done].
  - intros Hin. rewrite (resolveType_inherited this name Hin) in Hrun.
    by injection Hrun as <- <-.
  - intros a. split; [|apply Hheap].
    intros [node Hnode]. by destruct (resolveType_complete _ _ _ _ _ _ Hrun Hnode)
      as (_ & _ & ? & _).
  - intros a node Hnode. by destruct (resolveType_complete _ _ _ _ _ _ Hrun Hnode)
      as (_ & ? & _).
Qed.

(** X6. The graph is bounded by the schema: every full name in the
    dictionary is the requested name or a type name the schema mentions
    as alias target, field type or variant alternative, and the number of
    nodes is at most one more than the number of these mentions. *)
Theorem resolveType_graph_bound (this : ABI.Def) (name : string) :
  ∃ r σ,
    ABI.resolveType this name = Some (r, σ)
    ∧ ABI.ctx_id σ ≤ 1 + length (ABI.referenced this)
    ∧ ∀ key a, ABI.cache σ !! key = Some a →
        key = name ∨ key ∈ ABI.referenced this.
Proof.
  destruct (resolveType_total this name) as (r & σ & Hrun).
  exists r, σ. split; [done|].
  pose proof (resolveType_keys _ _ _ _ Hrun) as Hkeys.
  destruct (resolveType_dense _ _ _ _ Hrun) as [_ Hsize].
  split.
  - rewrite <- Hsize, <- size_dom.
    apply subseteq_size in Hkeys.
    pose proof (universe_size this name) as Hu. unfold ABI.resolve_fuel in Hu. lia.
  - intros key a Hkey.
    assert (key ∈ universe this name) as Hin.
    { apply Hkeys. apply elem_of_dom. by eexists. }
    unfold universe in Hin. set_solver.
Qed.

(** X7. An alias node refers to what the pass holds for the alias's
    target.  For every node whose base name is the name of an alias, the
    first such alias in the list of aliases decides: [ref] is set, and it
    is the node registered under the declared target, whose type name is
    that target, or, when the target is a name every object inherits, the
    built-in of that name. *)
Theorem resolveType_alias_target (this : ABI.Def) (name : string) :
  ∃ r σ,
    ABI.resolveType this name = Some (r, σ)
    ∧ ∀ a node alias l1 l2,
        ABI.heap σ !! a = Some node →
        ABI.types this = l1 ++ alias :: l2 →
        ABI.TypeDef.new_type_name alias = ABI.ResolvedType.name node →
        (∀ y, y ∈ l1 → ABI.TypeDef.new_type_name y ≠ ABI.ResolvedType.name node) →
        ∃ v,
          ABI.ResolvedType.ref node = Some v
          ∧ stands_for σ v (ABI.TypeDef.type alias).
Proof.
  destruct (resolveType_total this name) as (r & σ & Hrun).
  exists r, σ. split; [done|]. intros a node alias l1 l2 Hnode Hl Hname Hfirst.
  pose proof (getAlias_first _ _ _ _ _ Hl Hname Hfirst) as Halias.
  destruct (resolveType_complete _ _ _ _ _ _ Hrun Hnode) as (Hc & _ & _ & Hkeys).
  unfold complete in Hc. rewrite Halias in Hc.
  destruct Hc as [(v & Hv & Hkey) _].
  exists v. split; [done|]. by apply Hkeys.
Qed.

(** X8. A struct node lists the flattened fields: when no alias carries
    the base name and the flattener returns a field list for it, [fields]
    has one entry per field, in the same order and under the same name,
    and each entry's type is what the pass holds for the field's declared
    type: the node registered under it, or the built-in of that name when
    every object inherits it. *)
Theorem resolveType_struct_fields (this : ABI.Def) (name : string) :
  ∃ r σ,
    ABI.resolveType this name = Some (r, σ)
    ∧ ∀ a node fs,
        ABI.heap σ !! a = Some node →
        (∀ y, y ∈ ABI.types this →
              ABI.TypeDef.new_type_name y ≠ ABI.ResolvedType.name node) →
        ABI.resolveStruct this (ABI.ResolvedType.name node) = Some (Some fs) →
        ∃ frs,
          ABI.ResolvedType.fields node = Some frs
          ∧ Forall2 (λ f fr, fr.1 = ABI.Field.name f
                             ∧ stands_for σ fr.2 (ABI.Field.type f))
              fs frs.
Proof.
  destruct (resolveType_total this name) as (r & σ & Hrun).
  exists r, σ. split; [done|]. intros a node fs Hnode Hnoalias Hs.
  pose proof (getAlias_absent _ _ Hnoalias) as Halias.
  destruct (resolveType_complete _ _ _ _ _ _ Hrun Hnode) as (Hc & _ & _ & Hkeys).
  unfold complete in Hc. rewrite Halias, Hs in Hc.
  destruct Hc as [(frs & Hfrs & Hall) _].
  exists frs. split; [done|].
  eapply Forall2_impl; [exact Hall|]. intros f fr [Hname Hkey].
  split; [done|]. by apply Hkeys.
Qed.

(** X9. A variant node lists the alternatives: when no alias carries the
    base name, the flattener returns undefined for it and a variant
    carries it, the first such variant in the list of variants decides:
    [variant] has one entry per declared alternative, in declared order,
    and each is what the pass holds for the alternative: the node
    registered under it, or the built-in of that name when every object
    inherits it. *)
Theorem resolveType_variant_alternatives (this : ABI.Def) (name : string) :
  ∃ r σ,
    ABI.resolveType this name = Some (r, σ)
    ∧ ∀ a node v l1 l2,
        ABI.heap σ !! a = Some node →
        (∀ y, y ∈ ABI.types this →
              ABI.TypeDef.new_type_name y ≠ ABI.ResolvedType.name node) →
        ABI.resolveStruct this (ABI.ResolvedType.name node) = Some None →
        ABI.variants this = l1 ++ v :: l2 →
        ABI.Variant.name v = ABI.ResolvedType.name node →
        (∀ y, y ∈ l1 → ABI.Variant.name y ≠ ABI.ResolvedType.name node) →
        ∃ vs,
          ABI.ResolvedType.variant node = Some vs
          ∧ Forall2 (λ alternative c, stands_for σ c alternative)
              (ABI.Variant.types v) vs.
Proof.
  destruct (resolveType_total this name) as (r & σ & Hrun).
  exists r, σ. split; [done|].
  intros a node v l1 l2 Hnode Hnoalias Hs Hl Hname Hfirst.
  pose proof (getAlias_absent _ _ Hnoalias) as Halias.
  pose proof (getVariant_first _ _ _ _ _ Hl Hname Hfirst) as Hv.
  destruct (resolveType_complete _ _ _ _ _ _ Hrun Hnode) as (Hc & _ & _ & Hkeys).
  unfold complete in Hc. rewrite Halias, Hs, Hv in Hc.
  destruct Hc as [(vs & Hvs & Hall) _].
  exists vs. split; [done|].
  eapply Forall2_impl; [exact Hall|]. intros n c Hkey. by apply Hkeys.
Qed.

(** A struct with a field of the type "toString": the field holds the
    inherited built-in, and the next field's type is the node 2. *)
Example resolveType_inherited_field :
  ∃ σ, ABI.resolveType Samples.inherited_field "S" = Some (ABI.Node 1, σ)
       ∧ ABI.ResolvedType.fields <$> ABI.heap σ !! 1
         = Some (Some [("f", ABI.Builtin "toString"); ("g", ABI.Node 2)])
       ∧ header <$> ABI.heap σ !! 2 = Some ("uint8", 2, false, false, false)
       ∧ ABI.ctx_id σ = 2.
Proof. eexists. split; [vm_compute; reflexivity|]. by vm_compute. Qed.

(** X10. Two nodes of one graph with the same base name, such as the
    nodes of "foo" and "foo[]", carry the same [ref], the same [fields]
    and the same [variant]: their children are the same nodes. *)
Theorem resolveType_same_base_same_children (this : ABI.Def) (name : string) :
  ∃ r σ,
    ABI.resolveType this name = Some (r, σ)
    ∧ ∀ a b na nb,
        ABI.heap σ !! a = Some na →
        ABI.heap σ !! b = Some nb →
        ABI.ResolvedType.name na = ABI.ResolvedType.name nb →
        ABI.ResolvedType.ref na = ABI.ResolvedType.ref nb
        ∧ ABI.ResolvedType.fields na = ABI.ResolvedType.fields nb
        ∧ ABI.ResolvedType.variant na = ABI.ResolvedType.variant nb.
Proof.
  destruct (resolveType_total this name) as (r & σ & Hrun).
  exists r, σ. split; [done|]. intros a b na nb Ha Hb Hname.
  destruct (resolveType_complete _ _ _ _ _ _ Hrun Ha) as (Hca & _).
  destruct (resolveType_complete _ _ _ _ _ _ Hrun Hb) as (Hcb & _).
  unfold complete, unpopulated in Hca, Hcb. rewrite <- Hname in Hcb.
  destruct (ABI.getAlias this _) as [alias|].
  { destruct Hca as [(ra & -> & Hka) [-> ->]].
    destruct Hcb as [(rb & -> & Hkb) [-> ->]]. by rewrite Hka in Hkb. }
  assert (∀ v,
            (∃ vs, ABI.ResolvedType.variant na = Some vs
                   ∧ Forall2 (λ n r, ABI.read (ABI.cache σ) n = Some r)
                       (ABI.Variant.types v) vs)
            ∧ ABI.ResolvedType.fields na = None ∧ ABI.ResolvedType.ref na = None →
            (∃ vs, ABI.ResolvedType.variant nb = Some vs
                   ∧ Forall2 (λ n r, ABI.read (ABI.cache σ) n = Some r)
                       (ABI.Variant.types v) vs)
            ∧ ABI.ResolvedType.fields nb = None ∧ ABI.ResolvedType.ref nb = None →
            ABI.ResolvedType.ref na = ABI.ResolvedType.ref nb
            ∧ ABI.ResolvedType.fields na = ABI.ResolvedType.fields nb
            ∧ ABI.ResolvedType.variant na = ABI.ResolvedType.variant nb) as Hvariant.
  { intros v [(vsa & -> & Halla) [-> ->]] [(vsb & -> & Hallb) [-> ->]].
    repeat split. f_equal. eapply Forall2_fun; [|exact Halla|exact Hallb].
    simpl. congruence. }
  destruct (ABI.resolveStruct this _) as [[fs|]|].
  - destruct Hca as [(fa & -> & Halla) [-> ->]].
    destruct Hcb as [(fb & -> & Hallb) [-> ->]].
    repeat split. f_equal. eapply Forall2_fun; [|exact Halla|exact Hallb].
    simpl. intros f [n1 c1] [n2 c2] [? ?] [? ?]. simpl in *. congruence.
  - destruct (ABI.getVariant this _) as [v|]; [by eapply Hvariant|].
    destruct Hca as (-> & -> & ->). by destruct Hcb as (-> & -> & ->).
  - destruct (ABI.getVariant this _) as [v|]; [by eapply Hvariant|].
    destruct Hca as (-> & -> & ->). by destruct Hcb as (-> & -> & ->).
Qed.

(** X11. Every node of the graph carries the base name and the flags the
    constructor parses from the node's own type name; for a requested
    name that no object inherits the value returned is a node of the
    graph, and it carries those of the requested name. *)
Theorem resolveType_headers (this : ABI.Def) (name : string) :
  ∃ r σ,
    ABI.resolveType this name = Some (r, σ)
    ∧ (JS.inherited name = false →
       ∃ a root,
         r = ABI.Node a
         ∧ ABI.heap σ !! a = Some root
         ∧ header root = header (ABI.ResolvedType.new name a))
    ∧ ∀ a node, ABI.heap σ !! a = Some node →
        header node
        = header (ABI.ResolvedType.new (ABI.ResolvedType.typeName node) a).
Proof.
  destruct (resolveType_total this name) as (r & σ & Hrun).
  exists r, σ. split; [done|]. split.
  - intros Hplain.
    destruct (resolveType_root _ _ _ _ Hrun Hplain)
      as (a & root & -> & _ & Hroot & _ & Hhd & _).
    by exists a, root.
  - intros a node Hnode. destruct (resolveType_inv _ _ _ _ Hrun) as [Hinv _].
    by destruct (inv_heap _ _ _ Hinv _ _ Hnode) as (_ & _ & ?).
Qed.

(** X12. A name that no object inherits and whose base name is carried by
    no alias, no struct and no variant resolves to a graph of one node:
    the leaf parsed from the name, at address 1, registered under the
    name. *)
Theorem resolveType_unknown (this : ABI.Def) (name : string) :
  let base := ABI.ResolvedType.name (ABI.ResolvedType.new name 1) in
  JS.inherited name = false →
  (∀ y, y ∈ ABI.types this → ABI.TypeDef.new_type_name y ≠ base) →
  (∀ y, y ∈ ABI.structs this → ABI.Struct.name y ≠ base) →
  (∀ y, y ∈ ABI.variants this → ABI.Variant.name y ≠ base) →
  ABI.resolveType this name
  = Some (ABI.Node 1,
          {| ABI.cache := {[name := 1]}; ABI.ctx_id := 1;
             ABI.heap := {[1 := ABI.ResolvedType.new name 1]} |}).
Proof.
  intros base Hplain Hnoalias Hnostruct Hnovariant.
  unfold ABI.resolveType, ABI.resolve_fuel. simpl.
  unfold ABI.read at 1. rewrite lookup_empty, Hplain, typeName_new. fold base.
  rewrite (getAlias_absent _ _ Hnoalias). unfold ABI.resolveStruct.
  assert (ABI.getStruct this base = None) as ->.
  { unfold ABI.getStruct. apply find_absent.
    intros y Hy. apply String.eqb_neq. by apply Hnostruct. }
  rewrite (getVariant_absent _ _ Hnovariant).
  by rewrite !insert_empty.
Qed.

Lemma resolveType_unknown_witness :
  ABI.resolveType Samples.derived "uint8[]"
  = Some (ABI.Node 1,
          {| ABI.cache := {["uint8[]" := 1]}; ABI.ctx_id := 1;
             ABI.heap := {[1 := ABI.ResolvedType.new "uint8[]" 1]} |}).
Proof.
  apply (resolveType_unknown Samples.derived "uint8[]").
  - reflexivity.
  - intros y Hy. simpl in Hy. by apply elem_of_nil in Hy.
  - intros y Hy. simpl in Hy.
    apply elem_of_cons in Hy as [->|Hy]; [discriminate|].
    apply elem_of_cons in Hy as [->|Hy]; [discriminate|].
    by apply elem_of_nil in Hy.
  - intros y Hy. simpl in Hy. by apply elem_of_nil in Hy.
Defined.

(** X13. A call of [resolve] only adds to the pass: the counter does not
    go down, every dictionary entry stays as it is, and every node that
    existed before the call is the same after it. *)
Theorem resolve_only_adds (this : ABI.Def) (fuel : nat) (name : string)
    (σ σ' : ABI.Pass) (r : ABI.Value) :
  ABI.resolve this fuel name σ = Some (r, σ') →
  ABI.ctx_id σ ≤ ABI.ctx_id σ'
  ∧ (∀ key a, ABI.cache σ !! key = Some a → ABI.cache σ' !! key = Some a)
  ∧ (∀ a, a ≤ ABI.ctx_id σ → ABI.heap σ' !! a = ABI.heap σ !! a).
Proof.
  intros Hrun. destruct (resolve_frame _ _ _ _ _ _ Hrun) as (Hid & Hsub & Hheap).
  split; [done|]. split; [|done].
  intros key a Hkey. by eapply lookup_weaken.
Qed.

Lemma resolve_only_adds_witness :
  ∃ r σ',
    ABI.resolve Samples.two_foos 5 "S" (register "foo" ABI.Pass_empty) = Some (r, σ')
    ∧ ABI.cache σ' !! "foo" = Some 1
    ∧ ABI.heap σ' !! 1 = Some (ABI.ResolvedType.new "foo" 1).
Proof.
  destruct (ABI.resolve Samples.two_foos 5 "S" (register "foo" ABI.Pass_empty))
    as [[r σ']|] eqn:Hrun; [|vm_compute in Hrun; discriminate].
  exists r, σ'. split; [reflexivity|].
  destruct (resolve_only_adds _ _ _ _ _ _ Hrun) as (_ & Hcache & Hheap).
  split.
  - apply Hcache. vm_compute. reflexivity.
  - rewrite Hheap; [vm_compute; reflexivity|simpl; lia].
Defined.

(** X14. Memoization: once [resolve] has returned a node for a name,
    asking again for that name in the resulting state returns the same
    node and leaves the state as it is. *)
Theorem resolve_memoized (this : ABI.Def) (fuel : nat) (name : string)
    (σ σ' : ABI.Pass) (r : ABI.Value) :
  ABI.resolve this fuel name σ = Some (r, σ') →
  ∀ fuel', ABI.resolve this (S fuel') name σ' = Some (r, σ').
Proof.
  intros Hrun fuel'. simpl. by rewrite (resolve_cached _ _ _ _ _ _ Hrun).
Qed.

Lemma resolve_memoized_witness :
  ∃ r σ',
    ABI.resolveType Samples.linked "cell" = Some (r, σ')
    ∧ ABI.resolve Samples.linked 1 "cell" σ' = Some (r, σ').
Proof.
  destruct (ABI.resolveType Samples.linked "cell") as [[r σ']|] eqn:Hrun;
    [|vm_compute in Hrun; discriminate].
  exists r, σ'. split; [reflexivity|].
  exact (resolve_memoized Samples.linked _ "cell" ABI.Pass_empty σ' r Hrun 0).
Defined.

(** X19. Every node of the graph has at most one of [fields], [variant],
    [ref] set, decided by its base name in the order alias, struct,
    variant: [ref] alone when some alias carries the base name; otherwise
    [fields] alone when the flattener returns a field list for it;
    otherwise [variant] alone when some variant carries it; otherwise
    none of the three. *)
Theorem resolveType_node_kinds (this : ABI.Def) (name : string) :
  ∃ r σ,
    ABI.resolveType this name = Some (r, σ)
    ∧ ∀ a node, ABI.heap σ !! a = Some node →
        let base := ABI.ResolvedType.name node in
        let aliased := ∃ y, y ∈ ABI.types this ∧ ABI.TypeDef.new_type_name y = base in
        let flattened := ∃ fs, ABI.resolveStruct this base = Some (Some fs) in
        let varianted := ∃ y, y ∈ ABI.variants this ∧ ABI.Variant.name y = base in
        populated node ≤ 1
        ∧ (aliased →
           is_Some (ABI.ResolvedType.ref node)
           ∧ ABI.ResolvedType.fields node = None
           ∧ ABI.ResolvedType.variant node = None)
        ∧ (¬ aliased → flattened →
           is_Some (ABI.ResolvedType.fields node)
           ∧ ABI.ResolvedType.variant node = None
           ∧ ABI.ResolvedType.ref node = None)
        ∧ (¬ aliased → ¬ flattened → varianted →
           is_Some (ABI.ResolvedType.variant node)
           ∧ ABI.ResolvedType.fields node = None
           ∧ ABI.ResolvedType.ref node = None)
        ∧ (¬ aliased → ¬ flattened → ¬ varianted → populated node = 0).
Proof.
  destruct (resolveType_total this name) as (r & σ & Hrun).
  exists r, σ. split; [done|]. intros a node Hnode base aliased flattened varianted.
  destruct (resolveType_complete _ _ _ _ _ _ Hrun Hnode) as (Hc & _).
  split; [by eapply complete_populated|].
  unfold complete in Hc. fold base in Hc.
  assert (is_Some (ABI.getAlias this base) ↔ aliased) as Ha.
  { unfold ABI.getAlias, aliased. split.
    - intros [y [Hin Heq]%find_some]. exists y.
      split; [by apply list_elem_of_In|by apply String.eqb_eq].
    - intros (y & Hin & Heq).
      destruct (find _ _) eqn:Hf; [by eexists|].
      eapply find_none in Hf; [|by apply list_elem_of_In].
      apply String.eqb_neq in Hf. done. }
  assert (is_Some (ABI.getVariant this base) ↔ varianted) as Hv.
  { unfold ABI.getVariant, varianted. split.
    - intros [y [Hin Heq]%find_some]. exists y.
      split; [by apply list_elem_of_In|by apply String.eqb_eq].
    - intros (y & Hin & Heq).
      destruct (find _ _) eqn:Hf; [by eexists|].
      eapply find_none in Hf; [|by apply list_elem_of_In].
      apply String.eqb_neq in Hf. done. }
  destruct (ABI.getAlias this base) as [alias|].
  { assert aliased as Hal by (apply Ha; by eexists).
    destruct Hc as [(v & -> & _) [Hf Hvar]].
    split; [intros _; split; [by eexists|done]|]. naive_solver. }
  assert (¬ aliased) as Hnal by (intros H%Ha; by destruct H).
  split; [done|].
  destruct (ABI.resolveStruct this base) as [[fs|]|] eqn:Hs.
  - assert flattened as Hfl by by eexists.
    destruct Hc as [(frs & -> & _) [Hvar Href]].
    split; [intros _ _; split; [by eexists|done]|]. naive_solver.
  - assert (¬ flattened) as Hnfl by (intros [fs ?]; congruence).
    split; [done|].
    destruct (ABI.getVariant this base) as [v|].
    + assert varianted as Hva by (apply Hv; by eexists).
      destruct Hc as [(vs & -> & _) [Hf Href]].
      split; [intros _ _ _; split; [by eexists|done]|]. naive_solver.
    + assert (¬ varianted) as Hnva by (intros H%Hv; by destruct H).
      split; [done|]. intros _ _ _.
      destruct Hc as (Hf & Hvar & Href). unfold populated. by rewrite Hf, Hvar, Href.
  - pose proof (resolveStruct_total this base) as [? ?]. congruence.
Qed.

(** X20. For a requested name that every object inherits, such as
    "constructor" or "toString", [resolveType] returns the inherited
    built-in of that name whatever the schema declares: no node is
    allocated, nothing is registered and no lookup of the schema takes
    place. *)
Theorem resolveType_inherited_name (this : ABI.Def) (name : string) :
  JS.inherited name = true →
  ABI.resolveType this name = Some (ABI.Builtin name, ABI.Pass_empty)
  ∧ ∀ fuel σ, ABI.cache σ !! name = None →
      ABI.resolve this (S fuel) name σ = Some (ABI.Builtin name, σ).
Proof.
  intros Hin. split; [by apply resolveType_inherited|].
  intros fuel σ Hc. simpl. unfold ABI.read. by rewrite Hc, Hin.
Qed.

Lemma resolveType_inherited_name_witness :
  ABI.resolveType Samples.inherited_alias "valueOf"
  = Some (ABI.Builtin "valueOf", ABI.Pass_empty).
Proof.
  destruct (resolveType_inherited_name Samples.inherited_alias "valueOf")
    as [Hrun _]; [reflexivity|exact Hrun].
Defined.

(** ** Variant values, continued *)

(** X15. Round trip through JSON: for a value returned by the
    constructor, the pair that [toJSON] gives, handed to the constructor
    again, builds the same value. *)
Theorem new_of_toJSON {ABITypeDescriptor ABISerializable : Type}
    (abiTypeString : ABITypeDescriptor → string)
    (abiVariant : list ABITypeDescriptor)
    (tag : string) (payload : ABISerializable)
    (this : Variant.t (ABISerializable:=ABISerializable)) :
  Variant.new abiTypeString abiVariant (tag, payload) = inr this →
  ∃ name,
    Variant.toJSON abiTypeString abiVariant this
    = Some [Variant.JSONString name; Variant.JSONValue (Variant.value this)]
    ∧ Variant.new abiTypeString abiVariant (name, Variant.value this) = inr this.
Proof.
  intros Hnew.
  destruct (decide (tag ∈ map abiTypeString abiVariant)) as [Hin|Hnin].
  - destruct (new_found abiTypeString abiVariant tag payload Hin)
      as (n & Hn & Hat & _).
    rewrite Hn in Hnew. injection Hnew as <-.
    exists tag. unfold Variant.toJSON.
    rewrite (variantName_at abiTypeString abiVariant payload tag n Hat).
    split; [done|]. simpl. exact Hn.
  - rewrite (new_missing abiTypeString abiVariant tag payload Hnin) in Hnew. done.
Qed.

Lemma new_of_toJSON_witness :
  ∃ name,
    Variant.toJSON (λ d : string, d) ["int8"; "string"; "int8"]
      {| Variant.value := 7%Z; Variant.variantIdx := 0 |}
    = Some [Variant.JSONString name; Variant.JSONValue 7%Z]
    ∧ Variant.new (λ d : string, d) ["int8"; "string"; "int8"] (name, 7%Z)
      = inr {| Variant.value := 7%Z; Variant.variantIdx := 0 |}.
Proof.
  apply (new_of_toJSON (λ d : string, d) ["int8"; "string"; "int8"] "int8" 7%Z
           {| Variant.value := 7%Z; Variant.variantIdx := 0 |}).
  reflexivity.
Defined.

(** ** The schema is read through its lookups only *)

Section LookupsOnly.

Variables this1 this2 : ABI.Def.

Lemma loop_ext (fuel : nat) :
  (∀ n, ABI.getStruct this1 n = ABI.getStruct this2 n) →
  ∀ top rv seen,
    ABI.resolveStruct_loop this1 fuel top rv seen
    = ABI.resolveStruct_loop this2 fuel top rv seen.
Proof.
  intros Hs. induction fuel as [|fuel IH]; intros top rv seen; [done|].
  simpl. case_decide; [done|]. rewrite Hs.
  destruct (ABI.getStruct this2 _); [apply IH|done].
Qed.

Lemma resolveStruct_ext (name : string) :
  (∀ n, ABI.getStruct this1 n = ABI.getStruct this2 n) →
  ABI.resolveStruct this1 name = ABI.resolveStruct this2 name.
Proof.
  intros Hs.
  destruct (resolveStruct_total this1 name) as [res1 H1].
  destruct (resolveStruct_total this2 name) as [res2 H2].
  rewrite H1, H2. unfold ABI.resolveStruct in H1, H2. rewrite Hs in H1.
  destruct (ABI.getStruct this2 name) as [top|]; [|congruence].
  set (fuel := length (ABI.structs this1) + length (ABI.structs this2)).
  apply (loop_fuel_mono this1 _ fuel) in H1; [|lia].
  apply (loop_fuel_mono this2 _ fuel) in H2; [|lia].
  rewrite loop_ext in H1 by done. congruence.
Qed.

Lemma map_st_eq {A B : Type} (f g : A → ABI.Pass → option (B * ABI.Pass))
    (l : list A) :
  (∀ x σ, f x σ = g x σ) → ∀ σ, ABI.map_st f l σ = ABI.map_st g l σ.
Proof.
  intros Hfg. induction l as [|x l IH]; intros σ; simpl; [done|].
  rewrite Hfg. destruct (g x σ) as [[y σ1]|]; [|done]. by rewrite IH.
Qed.

Lemma resolve_ext (fuel : nat) :
  (∀ n, ABI.getAlias this1 n = ABI.getAlias this2 n) →
  (∀ n, ABI.getStruct this1 n = ABI.getStruct this2 n) →
  (∀ n, ABI.getVariant this1 n = ABI.getVariant this2 n) →
  ∀ name σ, ABI.resolve this1 fuel name σ = ABI.resolve this2 fuel name σ.
Proof.
  intros Ha Hs Hv. induction fuel as [|fuel IH]; intros name σ; [done|].
  simpl. destruct (ABI.read (ABI.cache σ) name); [done|].
  rewrite Ha, (resolveStruct_ext _ Hs), Hv.
  destruct (ABI.getAlias this2 _); [by rewrite IH|].
  destruct (ABI.resolveStruct this2 _) as [[fields|]|]; [| |done].
  - erewrite map_st_eq; [done|]. intros f σ'. simpl. by rewrite IH.
  - destruct (ABI.getVariant this2 _); [|done].
    erewrite map_st_eq; [done|]. intros n σ'. apply IH.
Qed.

End LookupsOnly.

(** X16. The flattener reads the schema through [getStruct] only: two
    schemas in which every name finds the same struct flatten every name
    to the same result.  A struct that an earlier struct of the same name
    shadows therefore never changes a flattening. *)
Theorem resolveStruct_lookup_only (this1 this2 : ABI.Def) (name : string) :
  (∀ n, ABI.getStruct this1 n = ABI.getStruct this2 n) →
  ABI.resolveStruct this1 name = ABI.resolveStruct this2 name.
Proof. apply resolveStruct_ext. Qed.

Lemma resolveStruct_lookup_only_witness :
  ABI.resolveStruct
    (ABI.mkDef "" [] [] [Samples.D; Samples.B; ABI.Struct.mk "D" "" []]) "D"
  = ABI.resolveStruct Samples.derived "D".
Proof.
  apply (resolveStruct_lookup_only
           (ABI.mkDef "" [] [] [Samples.D; Samples.B; ABI.Struct.mk "D" "" []])
           Samples.derived "D").
  intros n. unfold ABI.getStruct. cbn -[String.eqb].
  destruct (String.eqb "D" n); reflexivity.
Defined.

(** X17. The resolver reads the schema through its three lookups only:
    two schemas in which every name finds the same alias, the same struct
    and the same variant resolve every name to the same graph, whatever
    their versions and whatever shadowed entries they hold. *)
Theorem resolveType_lookup_only (this1 this2 : ABI.Def) (name : string) :
  (∀ n, ABI.getAlias this1 n = ABI.getAlias this2 n) →
  (∀ n, ABI.getStruct this1 n = ABI.getStruct this2 n) →
  (∀ n, ABI.getVariant this1 n = ABI.getVariant this2 n) →
  ABI.resolveType this1 name = ABI.resolveType this2 name.
Proof.
  intros Ha Hs Hv.
  destruct (resolveType_total this1 name) as (r1 & σ1 & H1).
  destruct (resolveType_total this2 name) as (r2 & σ2 & H2).
  rewrite H1, H2. unfold ABI.resolveType in H1, H2.
  set (fuel := ABI.resolve_fuel this1 + ABI.resolve_fuel this2).
  apply (resolve_fuel_mono this1 _ fuel) in H1; [|lia].
  apply (resolve_fuel_mono this2 _ fuel) in H2; [|lia].
  rewrite (resolve_ext this1 this2 fuel Ha Hs Hv) in H1. congruence.
Qed.

Lemma resolveType_lookup_only_witness :
  ABI.resolveType
    (ABI.mkDef "" [] [ABI.Variant.mk "S" ["int8"]]
       [ABI.Struct.mk "S" "" [ABI.Field.mk "one" "foo"; ABI.Field.mk "many" "foo[]"];
        ABI.Struct.mk "S" "" []]) "S?"
  = ABI.resolveType
      (ABI.mkDef "eosio::abi/1.1" [] [ABI.Variant.mk "S" ["int8"]]
         [ABI.Struct.mk "S" "" [ABI.Field.mk "one" "foo"; ABI.Field.mk "many" "foo[]"]])
      "S?".
Proof.
  apply resolveType_lookup_only.
  - intros n. reflexivity.
  - intros n. unfold ABI.getStruct. cbn -[String.eqb].
    destruct (String.eqb "S" n); reflexivity.
  - intros n. reflexivity.
Defined.
